(** * Daytona secret fetcher: a shallow embedding of [pkg/secrets/secrets.go]

    The development follows the source file top to bottom: the Go library
    functions the file calls ([strings], [path], [os]), the data model
    ([SecretDefinition], the Vault client replies), the effects of a run
    (process environment, files, log output, calls to the store), and then
    the functions [Walk], [addSecrets], [writeJSONSecrets],
    [writeSecretsToDestination], [setEnvSecrets] and [SecretFetcher].

    Go strings are byte strings; they are modelled by [string] (a list of
    8-bit characters).  Go maps with string keys are modelled by [gmap]. *)

From stdpp Require Import gmap gmultiset strings list fin_maps sorting.
From Stdlib Require Import Ascii String.

Open Scope string_scope.

(** String concatenation computes on literals in the proofs below. *)
#[global] Arguments String.append !_ _ : simpl nomatch.

(** ** Go library functions on byte strings *)

Module GoStrings.

(** [strings.HasPrefix(s, prefix)]. *)
Definition HasPrefix (s pre : string) : bool := String.prefix pre s.

Fixpoint drop (n : nat) (s : string) : string :=
  match n, s with
  | O, _ => s
  | S n', String _ s' => drop n' s'
  | S _, EmptyString => EmptyString
  end.

(** [strings.TrimPrefix(s, prefix)]: [s] without the leading [prefix],
    or [s] itself when it does not start with [prefix]. *)
Definition TrimPrefix (s pre : string) : string :=
  if HasPrefix s pre then drop (String.length pre) s else s.

(** [strings.Split(s, sep)] for a one-byte separator, the only use the
    source makes of it; the result always has at least one element. *)
Fixpoint Split (s : string) (sep : ascii) : list string :=
  match s with
  | EmptyString => [EmptyString]
  | String c r =>
      if Ascii.eqb c sep then EmptyString :: Split r sep
      else match Split r sep with
           | h :: t => String c h :: t
           | [] => [String c EmptyString]
           end
  end.

(** [strings.IndexByte(s, c) >= 0]: the byte occurs in the string. *)
Fixpoint hasByte (c : ascii) (s : string) : bool :=
  match s with
  | EmptyString => false
  | String a r => Ascii.eqb a c || hasByte c r
  end.

(** [strings.Join(elems, sep)]. *)
Fixpoint Join (elems : list string) (sep : string) : string :=
  match elems with
  | [] => ""
  | [e] => e
  | e :: rest => e ++ sep ++ Join rest sep
  end.

End GoStrings.

Module GoPath.
Import GoStrings.

(** [path.Split(p)]: the directory (up to and including the final slash)
    and the file name (what follows the final slash). *)
Fixpoint Split (p : string) : string * string :=
  match p with
  | EmptyString => (EmptyString, EmptyString)
  | String c rest =>
      let '(dir, file) := Split rest in
      if decide (dir = "") then
        if Ascii.eqb c "/" then (String c EmptyString, file)
        else (EmptyString, String c file)
      else (String c dir, file)
  end.

(** The element loop of [path.Clean], on the slash-separated elements of
    the path: [stack] holds the elements written so far, last one first. *)
Fixpoint cleanElems (rooted : bool) (stack elems : list string) : list string :=
  match elems with
  | [] => rev stack
  | e :: rest =>
      if decide (e = "") then cleanElems rooted stack rest
      else if decide (e = ".") then cleanElems rooted stack rest
      else if decide (e = "..") then
        match stack with
        | top :: below =>
            if decide (top = "..") then cleanElems rooted (e :: stack) rest
            else cleanElems rooted below rest
        | [] =>
            if rooted then cleanElems rooted [] rest
            else cleanElems rooted [e] rest
        end
      else cleanElems rooted (e :: stack) rest
  end.

(** [path.Clean(p)]. *)
Definition Clean (p : string) : string :=
  if decide (p = "") then "."
  else
    let rooted := HasPrefix p "/" in
    let out := GoStrings.Join (cleanElems rooted [] (GoStrings.Split p "/")) "/" in
    if rooted then "/" ++ out
    else if decide (out = "") then "." else out.

(** [path.Join(a, b)]: empty elements are ignored, the rest is joined
    with slashes and cleaned. *)
Definition Join (a b : string) : string :=
  if decide (a = "") then
    if decide (b = "") then "" else Clean b
  else Clean (a ++ "/" ++ b).


End GoPath.

(** ** The process environment

    The runtime keeps the environment as a table of ["KEY=value"] entries.
    [os.Environ] returns the non-empty entries, [os.Getenv] the value of
    the first entry for a key (the empty string when there is none), and
    [os.Setenv] overwrites the entry of a key or appends a new one. *)

Module GoOs.

(** An entry cut at its first ['=']; [None] when it has none. *)
Fixpoint cutEntry (e : string) : option (string * string) :=
  match e with
  | EmptyString => None
  | String c r =>
      if Ascii.eqb c "=" then Some (EmptyString, r)
      else match cutEntry r with
           | Some (k, v) => Some (String c k, v)
           | None => None
           end
  end.

Definition Environ (table : list string) : list string :=
  filter (λ e, e ≠ "") table.

Fixpoint lookupEnv (table : list string) (key : string) : string :=
  match table with
  | [] => ""
  | e :: rest =>
      match cutEntry e with
      | Some (k, v) => if decide (k = key) then v else lookupEnv rest key
      | None => lookupEnv rest key
      end
  end.

Definition Getenv (table : list string) (key : string) : string :=
  if decide (key = "") then "" else lookupEnv table key.

(** [os.Setenv] refuses an empty key, a key with ['='] or a NUL byte,
    and a value with a NUL byte. *)
Definition validSetenv (key value : string) : bool :=
  negb (bool_decide (key = ""))
  && negb (GoStrings.hasByte "=" key) && negb (GoStrings.hasByte "000" key)
  && negb (GoStrings.hasByte "000" value).

Definition entry (key value : string) : string := key ++ "=" ++ value.

Fixpoint replaceEnv (table : list string) (key value : string) : option (list string) :=
  match table with
  | [] => None
  | e :: rest =>
      match cutEntry e with
      | Some (k, _) =>
          if decide (k = key) then Some (entry key value :: rest)
          else (e ::.) <$> replaceEnv rest key value
      | None => (e ::.) <$> replaceEnv rest key value
      end
  end.

Definition Setenv (table : list string) (key value : string) : option (list string) :=
  if validSetenv key value then
    Some (default (table ++ [entry key value])%list (replaceEnv table key value))
  else None.

End GoOs.

(** ** Data model *)

Definition defaultKeyName : string := "value".
Definition secretDestinationPrefix : string := "DAYTONA_SECRET_DESTINATION_".
Definition secretStoragePathPrefix : string := "VAULT_SECRET_".
Definition secretsStoragePathPrefix : string := "VAULT_SECRETS_".

(** [SecretDefinition]: one secret definition read from the environment. *)
Record SecretDefinition := mkSecretDefinition {
  EnvKey : string;
  SecretID : string;
  SecretApex : string;
  OutputDestination : string;
  secrets : gmap string string;
  plural : bool;
  paths : list string
}.

Definition withOutputDestination (dest : string) (sd : SecretDefinition) :=
  mkSecretDefinition (EnvKey sd) (SecretID sd) (SecretApex sd) dest
                     (secrets sd) (plural sd) (paths sd).

Definition withSecrets (m : gmap string string) (sd : SecretDefinition) :=
  mkSecretDefinition (EnvKey sd) (SecretID sd) (SecretApex sd)
                     (OutputDestination sd) m (plural sd) (paths sd).

Definition withPaths (ps : list string) (sd : SecretDefinition) :=
  mkSecretDefinition (EnvKey sd) (SecretID sd) (SecretApex sd)
                     (OutputDestination sd) (secrets sd) (plural sd) ps.

(** A Go [interface{}] value as the Vault client decodes it from JSON. *)
#[warnings="-register-all"]
Inductive value :=
| VString (s : string)
| VNumber (n : Z)
| VBool (b : bool)
| VNil
| VSlice (l : list value)
| VMap (m : list (string * value)).

(** The errors of a run: those the store client returns and those the
    source builds with [fmt.Errorf] or passes to [log.Fatalf], one
    constructor per message. *)
Inductive error :=
| StoreError (msg : string)
| IOError (path : string)
| ErrListing (apex : string) (cause : error)
| ErrNoSecretsFound (apex : string)
| ErrListFormat (apex : string)
| ErrNonStringName
| ErrWriteFile (path : string) (cause : error)
| ErrSetenv (key : string)
| ErrRetrieving (keyPath : string) (cause : error)
| ErrListedNotFound (keyName keyPath : string).

(** [api.Secret]; the source reads its [Data] only. *)
Record ApiSecret := mkApiSecret { Data : gmap string value }.

(** The store client: [client.Logical().List] and [client.Logical().Read],
    each returning a secret (or nil) and an error (or nil). *)
Record Client := mkClient {
  Logical_List : string → option ApiSecret * option error;
  Logical_Read : string → option ApiSecret * option error
}.

(** Modelled from the spec: the [SecretResult] struct is declared with the
    parallel reader, outside this source file; a fetch result is a path, an
    attribute map or nothing, and an optional error. *)
Record SecretResult := mkSecretResult {
  KeyPath : string;
  Secret : option ApiSecret;
  Err : option error
}.

(** Modelled from the spec: [cfg.Config] is declared in [pkg/config],
    outside this source file; it holds the worker count, the flag for
    export to the process environment and the optional path of the
    consolidated JSON payload. *)
Record Config := mkConfig {
  Workers : nat;
  SecretPayloadPath : string;
  SecretEnv : bool
}.

(** What the Go runtime and library leave open or define over Unicode:
    the case mappings of [strings], the JSON encoder, and the order in
    which a [range] loop visits a map (some enumeration of its entries). *)
Class GoRuntime := {
  ToLower : string → string;
  ToUpper : string → string;
  Marshal : gmap string string → string;
  rangeMap : ∀ {A : Type}, gmap string A → list (string * A);
  rangeMap_perm : ∀ (A : Type) (m : gmap string A), rangeMap m ≡ₚ map_to_list m
}.

(** ** Effects

    A run reads and writes the process environment and the file system,
    calls the store, and prints log lines; it ends normally, by
    [log.Fatal] (exit status 1), by a runtime panic, or blocked forever on
    the result channel. *)

Inductive LogLine :=
| LogStarting
| LogNoOutputMethod (envKey : string)
| LogIteration (apex : string)
| LogWroteSecret (dest : string)
| LogWroteSecrets (n : nat) (path : string)
| LogSetEnv (key : string).

Record World := mkWorld {
  environ : list string;        (* the environment table *)
  files : gmap string string;   (* file contents by path *)
  readonly : gset string;       (* paths that cannot be written *)
  listed : list string;         (* paths passed to List so far *)
  submitted : list string;      (* paths passed to the reader so far *)
  inflight : list string;       (* submitted, result not yet taken *)
  completion : list nat         (* which in-flight request completes next *)
}.

Inductive PanicReason :=
| NotAString (v : value).

Inductive Outcome (A : Type) :=
| Done (a : A)
| Fatal (e : error)
| Panic (p : PanicReason)
| Blocked.
Arguments Done {A} a.
Arguments Fatal {A} e.
Arguments Panic {A} p.
Arguments Blocked {A}.

Definition M (A : Type) : Type := World → Outcome A * World * list LogLine.

#[global] Instance M_ret : MRet M := λ A a w, (Done a, w, []).

#[global] Instance M_bind : MBind M := λ A B f m w,
  match m w with
  | (Done a, w', out) => let '(o, w'', out') := f a w' in (o, w'', out ++ out')%list
  | (Fatal e, w', out) => (Fatal e, w', out)
  | (Panic p, w', out) => (Panic p, w', out)
  | (Blocked, w', out) => (Blocked, w', out)
  end.

(** [log.Fatalln], [log.Fatalf]: the run ends here. *)
Definition fatal {A} (e : error) : M A := λ w, (Fatal e, w, []).
Definition panic {A} (p : PanicReason) : M A := λ w, (Panic p, w, []).
Definition logLine (l : LogLine) : M unit := λ w, (Done (), w, [l]).

Definition getenv (key : string) : M string :=
  λ w, (Done (GoOs.Getenv (environ w) key), w, []).

Definition osEnvironM : M (list string) :=
  λ w, (Done (GoOs.Environ (environ w)), w, []).

Definition setenv (key val : string) : M (option error) := λ w,
  match GoOs.Setenv (environ w) key val with
  | Some table =>
      (Done None,
       mkWorld table (files w) (readonly w) (listed w) (submitted w)
               (inflight w) (completion w), [])
  | None => (Done (Some (ErrSetenv key)), w, [])
  end.

Definition setFile (path data : string) (w : World) : World :=
  mkWorld (environ w) (<[path := data]> (files w)) (readonly w)
          (listed w) (submitted w) (inflight w) (completion w).

(** [ioutil.WriteFile(path, data, 0600)]: the file is created or
    truncated and holds [data] afterwards; the mode bits are not modelled. *)
Definition writeFile (path data : string) : M (option error) := λ w,
  if decide (path ∈ readonly w) then (Done (Some (IOError path)), w, [])
  else (Done None, setFile path data w, []).

Definition noteListed (path : string) (w : World) : World :=
  mkWorld (environ w) (files w) (readonly w) (listed w ++ [path])
          (submitted w) (inflight w) (completion w).

Definition noteSubmitted (path : string) (w : World) : World :=
  mkWorld (environ w) (files w) (readonly w) (listed w)
          (submitted w ++ [path]) (inflight w ++ [path]) (completion w).

Definition logicalList (client : Client) (path : string)
  : M (option ApiSecret * option error) := λ w,
  (Done (Logical_List client path), noteListed path w, []).

(** Modelled from the spec: the parallel reader is declared outside this
    source file.  [AsyncRequestKeyPath] enqueues a read request and does
    not block. *)
Definition AsyncRequestKeyPath (path : string) : M unit := λ w,
  (Done (), noteSubmitted path w, []).

(** Modelled from the spec: [ReadSecretResult] blocks until a result is
    available and returns the result of one of the requests in flight,
    in no particular order: the next scheduling choice picks it.  With no
    worker or no request in flight it blocks forever. *)
Definition ReadSecretResult (client : Client) (workers : nat) : M SecretResult := λ w,
  match workers, inflight w with
  | O, _ | _, [] => (Blocked, w, [])
  | S _, p0 :: _ =>
      let i := (hd 0 (completion w) `mod` List.length (inflight w))%nat in
      let p := default p0 (inflight w !! i) in
      let '(secret, err) := Logical_Read client p in
      (Done (mkSecretResult p secret err),
       mkWorld (environ w) (files w) (readonly w) (listed w) (submitted w)
               (delete i (inflight w)) (tail (completion w)), [])
  end.

Fixpoint forM_ {A} (f : A → M unit) (l : list A) : M unit :=
  match l with
  | [] => mret ()
  | x :: rest => f x ;; forM_ f rest
  end.

Fixpoint foldM {A S} (f : S → A → M S) (s : S) (l : list A) : M S :=
  match l with
  | [] => mret s
  | x :: rest => s' ← f s x; foldM f s' rest
  end.

(** ** The source functions *)

Section Fetcher.
Context {rt : GoRuntime}.

(** The loop of [Walk] over the listed keys: a key that is not a string
    ends it with an error, a string key is joined onto the apex. *)
Fixpoint walkKeys (apex : string) (keys : list value) (acc : list string)
  : error + list string :=
  match keys with
  | [] => inr acc
  | VString key :: rest => walkKeys apex rest (acc ++ [GoPath.Join apex key])
  | _ :: _ => inl ErrNonStringName
  end.

(** [Walk]: lists the apex of a definition and sets its [paths]. *)
Definition Walk (client : Client) (sd : SecretDefinition)
  : M (SecretDefinition * option error) :=
  '(list, err) ← logicalList client (SecretApex sd);
  match err with
  | Some e => mret (sd, Some (ErrListing (SecretApex sd) e))
  | None =>
      match list with
      | None => mret (sd, Some (ErrNoSecretsFound (SecretApex sd)))
      | Some l =>
          if decide (size (Data l) = 0) then
            mret (sd, Some (ErrNoSecretsFound (SecretApex sd)))
          else
            logLine (LogIteration (SecretApex sd));;
            match Data l !! "keys" with
            | Some (VSlice keys) =>
                match walkKeys (SecretApex sd) keys [] with
                | inl e => mret (sd, Some e)
                | inr ps => mret (withPaths ps sd, None)
                end
            | _ => mret (sd, Some (ErrListFormat (SecretApex sd)))
            end
      end
  end.

(** The type assertion [v.(string)], which panics on any other value. *)
Definition assertString (v : value) : M string :=
  match v with
  | VString s => mret s
  | _ => panic (NotAString v)
  end.

(** The key under which [addSecrets] stores attribute [k] of the secret
    named [keyName]. *)
Definition secretKey (keyName k : string) : string :=
  if decide (k = defaultKeyName) then keyName
  else keyName ++ "_" ++ k.

(** The loop of [addSecrets] over the attributes, in the order the
    [range] visits them. *)
Fixpoint mergeData (keyName : string) (kvs : list (string * value))
         (acc : gmap string string) : M (gmap string string) :=
  match kvs with
  | [] => mret acc
  | (k, v) :: rest =>
      s ← assertString v;
      mergeData keyName rest (<[secretKey keyName k := s]> acc)
  end.

(** [addSecrets]: merges one fetch result into the definition. *)
Definition addSecrets (client : Client) (sd : SecretDefinition)
           (secretResult : SecretResult) : M (SecretDefinition * option error) :=
  let keyPath := KeyPath secretResult in
  let keyName := (GoPath.Split keyPath).2 in
  match Err secretResult with
  | Some err => fatal (ErrRetrieving keyPath err)
  | None =>
      match Secret secretResult with
      | None => fatal (ErrListedNotFound keyName keyPath)
      | Some secret =>
          m ← mergeData keyName (rangeMap (Data secret)) (secrets sd);
          mret (withSecrets m sd, None)
      end
  end.

(** [writeJSONSecrets]; [json.Marshal] does not fail on a map of strings. *)
Definition writeJSONSecrets (m : gmap string string) (filepath : string)
  : M (option error) :=
  err ← writeFile filepath (Marshal m);
  match err with
  | Some e => mret (Some (ErrWriteFile filepath e))
  | None => logLine (LogWroteSecrets (size m) filepath);; mret None
  end.

(** The loop of [writeSecretsToDestination] for a singular definition:
    each value is written to the destination in turn. *)
Fixpoint writeValues (dest : string) (kvs : list (string * string))
  : M (option error) :=
  match kvs with
  | [] => mret None
  | (_, secretValue) :: rest =>
      err ← writeFile dest secretValue;
      match err with
      | Some e => mret (Some (ErrWriteFile dest e))
      | None => logLine (LogWroteSecret dest);; writeValues dest rest
      end
  end.

Definition writeSecretsToDestination (def : SecretDefinition) : M (option error) :=
  if plural def then writeJSONSecrets (secrets def) (OutputDestination def)
  else writeValues (OutputDestination def) (rangeMap (secrets def)).

Fixpoint setEnvLoop (kvs : list (string * string)) : M (option error) :=
  match kvs with
  | [] => mret None
  | (k, v) :: rest =>
      err ← setenv k v;
      match err with
      | Some e => mret (Some e)
      | None => logLine (LogSetEnv k);; setEnvLoop rest
      end
  end.

Definition setEnvSecrets (m : gmap string string) : M (option error) :=
  setEnvLoop (rangeMap m).

(** *** [SecretFetcher], first loop: one environment entry *)

(** Lines 70-92: the definition an entry gives, if any. *)
Definition newDefinition (envKey apex : string) : option SecretDefinition :=
  if decide (apex = "") then None
  else
    let def := mkSecretDefinition envKey "" apex "" ∅ false [] in
    if GoStrings.HasPrefix envKey secretStoragePathPrefix then
      Some (mkSecretDefinition envKey
              (GoStrings.TrimPrefix envKey secretStoragePathPrefix)
              apex "" ∅ false (paths def ++ [apex]))
    else if GoStrings.HasPrefix envKey secretsStoragePathPrefix then
      Some (mkSecretDefinition envKey
              (GoStrings.TrimPrefix envKey secretsStoragePathPrefix)
              apex "" ∅ true (paths def))
    else None.

(** Lines 94-103: the destination of a secret identifier, the empty
    string when no variant of the companion variable is set. *)
Definition resolveDestination (table : list string) (secretID : string) : string :=
  let dest := GoOs.Getenv table (secretDestinationPrefix ++ secretID) in
  if decide (dest ≠ "") then dest
  else
    let dest := GoOs.Getenv table (secretDestinationPrefix ++ ToLower secretID) in
    if decide (dest ≠ "") then dest
    else
      let dest := GoOs.Getenv table (secretDestinationPrefix ++ ToUpper secretID) in
      if decide (dest ≠ "") then dest
      else "".

Definition lookupDestination (secretID : string) : M string :=
  λ w, (Done (resolveDestination (environ w) secretID), w, []).

(** Lines 105-110: no output method at all for this definition. *)
Definition noOutputMethod (config : Config) (def : SecretDefinition) : bool :=
  bool_decide (SecretPayloadPath config = "") && negb (SecretEnv config)
  && bool_decide (OutputDestination def = "").

(** Lines 124-131: what the loop does with one result it has taken. *)
Definition mergeResult (client : Client) (def : SecretDefinition)
           (secretResult : SecretResult) : M SecretDefinition :=
  match Err secretResult with
  | Some e => fatal e
  | None =>
      '(def', err) ← addSecrets client def secretResult;
      match err with
      | Some e => fatal e
      | None => mret def'
      end
  end.

(** Lines 122-132: one turn of the loop that takes the results. *)
Definition takeResult (client : Client) (config : Config)
           (def : SecretDefinition) : M SecretDefinition :=
  secretResult ← ReadSecretResult client (Workers config);
  mergeResult client def secretResult.

(** Lines 112-134: expansion, requests and results of one definition. *)
Definition fetchDefinition (client : Client) (config : Config)
           (def : SecretDefinition) : M SecretDefinition :=
  def ← (if plural def then
           '(def', err) ← Walk client def;
           match err with
           | Some e => fatal e
           | None => mret def'
           end
         else mret def);
  forM_ AsyncRequestKeyPath (paths def);;
  foldM (λ d _, takeResult client config d) def (paths def).

(** The body of the first loop: the definitions found so far and the
    next entry of the environment. *)
Definition processEntry (client : Client) (config : Config)
           (defs : list SecretDefinition) (env : string)
  : M (list SecretDefinition) :=
  let pair := GoStrings.Split env "=" in
  let envKey := hd "" pair in
  apex ← getenv envKey;
  match newDefinition envKey apex with
  | None => mret defs
  | Some def =>
      dest ← lookupDestination (SecretID def);
      let def := withOutputDestination dest def in
      if noOutputMethod config def then
        logLine (LogNoOutputMethod (EnvKey def));; mret defs
      else
        def ← fetchDefinition client config def;
        mret (defs ++ [def])%list
  end.

(** *** [SecretFetcher], second loop: output of one definition *)

Definition outputDefinition (config : Config) (def : SecretDefinition) : M unit :=
  (if SecretEnv config then setEnvSecrets (secrets def);; mret () else mret ());;
  (if decide (OutputDestination def ≠ "")
   then writeSecretsToDestination def;; mret () else mret ());;
  if decide (SecretPayloadPath config ≠ "") then
    err ← writeJSONSecrets (secrets def) (SecretPayloadPath config);
    match err with
    | Some e => fatal e
    | None => mret ()
    end
  else mret ().

Definition discover (client : Client) (config : Config) (envs : list string)
  : M (list SecretDefinition) :=
  foldM (processEntry client config) [] envs.

(** [SecretFetcher]; the result is the list [defs]. *)
Definition SecretFetcher (client : Client) (config : Config)
  : M (list SecretDefinition) :=
  logLine LogStarting;;
  envs ← osEnvironM;
  defs ← discover client config envs;
  forM_ (outputDefinition config) defs;;
  mret defs.

End Fetcher.

(** ** Definitions that follow the spec's words *)

(** Following the spec's words: the first non-empty value among the
    candidates, in their order, and the empty string when there is none. *)
Definition firstNonEmpty (candidates : list string) : string :=
  default "" (head (filter (λ s, s ≠ "") candidates)).

(** Following the spec's words: the names of the companion variable, the
    identifier as given, then in lower case, then in upper case. *)
Definition destinationVariables {rt : GoRuntime} (secretID : string) : list string :=
  [ secretDestinationPrefix ++ secretID;
    secretDestinationPrefix ++ ToLower secretID;
    secretDestinationPrefix ++ ToUpper secretID ].

(** What the first loop leaves alone: the environment and the files. *)

Definition sameSurroundings (w w' : World) : Prop :=
  environ w' = environ w ∧ files w' = files w ∧ readonly w' = readonly w.

Definition preserves {A} (m : M A) : Prop :=
  ∀ w o w' out, m w = (o, w', out) → sameSurroundings w w'.

(** What the first loop has established of a definition it keeps, in the
    environment [table]: where its apex and its destination come from, how
    its name splits into prefix and identifier, and that it has a way out. *)
Definition discovered {rt : GoRuntime} (config : Config) (table : list string)
           (d : SecretDefinition) : Prop :=
  SecretApex d = GoOs.Getenv table (EnvKey d)
  ∧ SecretApex d ≠ ""
  ∧ ((plural d = false ∧ EnvKey d = secretStoragePathPrefix ++ SecretID d
      ∧ paths d = [SecretApex d])
     ∨ (plural d = true ∧ EnvKey d = secretsStoragePathPrefix ++ SecretID d))
  ∧ OutputDestination d = resolveDestination table (SecretID d)
  ∧ noOutputMethod config d = false.

(** The name of an entry of the environment, as the first loop cuts it. *)
Definition entryKey (env : string) : string := hd "" (GoStrings.Split env "=").

(** What the output loop leaves alone: the store's side of the world and
    the set of paths that cannot be written. *)
Definition outputOnly (w w' : World) : Prop :=
  readonly w' = readonly w ∧ listed w' = listed w ∧ submitted w' = submitted w
  ∧ inflight w' = inflight w ∧ completion w' = completion w.

(** ** The fetch engine

    The parallel reader is declared outside this source file.  The spec
    gives its design: N workers, each in a loop that receives a path from
    the shared request channel, calls the store's read, wraps the outcome
    as a result and sends it to the shared result channel; the caller
    submits paths and takes results.  The model is the interleaving of
    these steps: a state of the engine, and one action at a time, by the
    caller or by one worker. *)

Module ParallelReader.

(** Modelled from the spec: a worker of the parallel reader (declared
    outside this source file) is waiting for a path, has received one, or
    holds the result it has read for it. *)
Inductive Worker :=
| Idle
| Reading (path : string)
| Holding (result : SecretResult).

(** Modelled from the spec: the state of the parallel reader (declared
    outside this source file) and of its caller. *)
Record Engine := mkEngine {
  toSubmit : list string;        (* paths the caller has yet to submit *)
  requests : list string;        (* the request channel *)
  workers : list Worker;         (* the N workers *)
  results : list SecretResult;   (* the result channel *)
  taken : list SecretResult;     (* results the caller has taken, oldest first *)
  reads : list string            (* paths read from the store so far *)
}.

(** Modelled from the spec: the steps of the parallel reader (declared
    outside this source file): the caller submits a path or takes a
    result; worker [i] receives a path, reads it from the store, or sends
    its result. *)
Inductive Action :=
| Submit
| Receive (i : nat)
| ReadStore (i : nat)
| Send (i : nat)
| Next.

Definition resultOf (client : Client) (path : string) : SecretResult :=
  let '(secret, err) := Logical_Read client path in
  mkSecretResult path secret err.

(** Modelled from the spec: one action of the parallel reader (declared
    outside this source file), when it is enabled: [submit] appends to the
    request channel and never blocks; a worker that is idle receives the
    oldest request; a worker that has a path reads it from the store, once;
    a worker that holds a result sends it to the result channel; [next]
    takes the oldest result of the result channel. *)
Definition exec (client : Client) (a : Action) (e : Engine) : option Engine :=
  match a with
  | Submit =>
      match toSubmit e with
      | p :: rest =>
          Some (mkEngine rest (requests e ++ [p]) (workers e) (results e)
                         (taken e) (reads e))
      | [] => None
      end
  | Receive i =>
      match workers e !! i, requests e with
      | Some Idle, p :: rest =>
          Some (mkEngine (toSubmit e) rest (<[i := Reading p]> (workers e))
                         (results e) (taken e) (reads e))
      | _, _ => None
      end
  | ReadStore i =>
      match workers e !! i with
      | Some (Reading p) =>
          Some (mkEngine (toSubmit e) (requests e)
                         (<[i := Holding (resultOf client p)]> (workers e))
                         (results e) (taken e) (reads e ++ [p]))
      | _ => None
      end
  | Send i =>
      match workers e !! i with
      | Some (Holding r) =>
          Some (mkEngine (toSubmit e) (requests e) (<[i := Idle]> (workers e))
                         (results e ++ [r]) (taken e) (reads e))
      | _ => None
      end
  | Next =>
      match results e with
      | r :: rest =>
          Some (mkEngine (toSubmit e) (requests e) (workers e) rest
                         (taken e ++ [r]) (reads e))
      | [] => None
      end
  end.

(** A sequence of actions, each enabled in its turn. *)
Fixpoint run (client : Client) (acts : list Action) (e : Engine) : option Engine :=
  match acts with
  | [] => Some e
  | a :: rest =>
      match exec client a e with
      | Some e' => run client rest e'
      | None => None
      end
  end.

(** Modelled from the spec: [open(n)] of the parallel reader (declared
    outside this source file), with the paths the caller will submit. *)
Definition init (n : nat) (paths : list string) : Engine :=
  mkEngine paths [] (replicate n Idle) [] [] [].

Definition isIdle (x : Worker) : bool :=
  match x with Idle => true | _ => false end.

(** Nothing left to do: every path submitted, received, read, sent, taken. *)
Definition quiescent (e : Engine) : bool :=
  bool_decide (toSubmit e = []) && bool_decide (requests e = [])
  && forallb isIdle (workers e) && bool_decide (results e = []).

(** The path a worker is busy with, as a multiset of at most one path. *)
Definition held (x : Worker) : gmultiset string :=
  match x with
  | Idle => ∅
  | Reading p => {[+ p +]}
  | Holding r => {[+ KeyPath r +]}
  end.

(** The path a worker has read from the store and not yet sent on. *)
Definition readBy (x : Worker) : gmultiset string :=
  match x with
  | Holding r => {[+ KeyPath r +]}
  | _ => ∅
  end.

Definition pathsOf (rs : list SecretResult) : gmultiset string :=
  list_to_set_disj (KeyPath <$> rs).

(** The multiset of the paths of the run, wherever each is now. *)
Definition owed (e : Engine) : gmultiset string :=
  list_to_set_disj (toSubmit e) ⊎ list_to_set_disj (requests e)
  ⊎ ⋃+ (held <$> workers e) ⊎ pathsOf (results e) ⊎ pathsOf (taken e).

(** The multiset of the paths read from the store whose result is with a
    worker, in the result channel, or taken. *)
Definition delivered (e : Engine) : gmultiset string :=
  ⋃+ (readBy <$> workers e) ⊎ pathsOf (results e) ⊎ pathsOf (taken e).

(** A result is the store's answer for its own path. *)
Definition genuine (client : Client) (r : SecretResult) : Prop :=
  r = resultOf client (KeyPath r).

Definition genuineWorker (client : Client) (x : Worker) : Prop :=
  match x with
  | Holding r => genuine client r
  | _ => True
  end.

Definition phase (x : Worker) : nat :=
  match x with
  | Idle => 0
  | Reading _ => 3
  | Holding _ => 2
  end.

(** The number of actions still to come. *)
Definition remaining (e : Engine) : nat :=
  5 * List.length (toSubmit e) + 4 * List.length (requests e)
  + sum_list (phase <$> workers e) + List.length (results e).

(** What the store has been asked and what the engine holds agree. *)
Definition consistent (client : Client) (e : Engine) : Prop :=
  list_to_set_disj (reads e) = delivered e
  ∧ Forall (genuineWorker client) (workers e)
  ∧ Forall (genuine client) (results e)
  ∧ Forall (genuine client) (taken e).

End ParallelReader.

(** ** A runtime for closed examples

    Case mappings on the ASCII letters, maps visited in the order of
    [map_to_list], and a JSON encoder for maps of strings that writes the
    keys in increasing order and escapes the quote and the backslash; it
    agrees with [encoding/json] on printable ASCII strings without
    ['<'], ['>'] and ['&']. *)

Module SampleRuntime.

Definition lowerByte (c : ascii) : ascii :=
  let n := nat_of_ascii c in
  if (65 <=? n)%nat && (n <=? 90)%nat then ascii_of_nat (n + 32) else c.

Definition upperByte (c : ascii) : ascii :=
  let n := nat_of_ascii c in
  if (97 <=? n)%nat && (n <=? 122)%nat then ascii_of_nat (n - 32) else c.

Fixpoint mapBytes (f : ascii → ascii) (s : string) : string :=
  match s with
  | EmptyString => EmptyString
  | String c r => String (f c) (mapBytes f r)
  end.

Fixpoint escape (s : string) : string :=
  match s with
  | EmptyString => EmptyString
  | String c r =>
      if Ascii.eqb c "034" then String "\" (String c (escape r))
      else if Ascii.eqb c "\" then String "\" (String c (escape r))
      else String c (escape r)
  end.

Definition quote (s : string) : string :=
  String "034" (escape s ++ String "034" EmptyString).

Definition member (kv : string * string) : string :=
  quote kv.1 ++ ":" ++ quote kv.2.

Definition keyLe (a b : string * string) : Prop := String.leb a.1 b.1 = true.

#[local] Instance keyLe_dec : RelDecision keyLe.
Proof. intros a b. unfold keyLe. apply _. Defined.

Definition marshal (m : gmap string string) : string :=
  "{" ++ GoStrings.Join (member <$> merge_sort keyLe (map_to_list m)) "," ++ "}".

#[global, refine] Instance runtime : GoRuntime := {|
  ToLower := mapBytes lowerByte;
  ToUpper := mapBytes upperByte;
  Marshal := marshal;
  rangeMap := λ A m, map_to_list m
|}.
Proof. reflexivity. Defined.

End SampleRuntime.

(** ** Data of the examples *)

(** The environment of the examples: a singular secret with a destination
    declared in lower case, a plural secret, and a variable that is not a
    secret reference. *)
Definition sampleTable : list string :=
  [ "VAULT_SECRET_API=secret/app/api";
    "DAYTONA_SECRET_DESTINATION_api=/out/api.txt";
    "VAULT_SECRETS_DB=secret/app/db";
    "HOME=/root" ].

Definition worldOf (table : list string) : World :=
  mkWorld table ∅ ∅ [] [] [] [].

(** A store that holds nothing. *)
Definition emptyStore : Client :=
  mkClient (λ _, (None, None)) (λ _, (None, None)).

(** The store of the examples: one singular secret, and a group of two. *)
Definition sampleStore : Client :=
  mkClient
    (λ p, if decide (p = "secret/app/db")
          then (Some (mkApiSecret {[ "keys" := VSlice [VString "user"; VString "pass"] ]}),
                None)
          else (None, None))
    (λ p, if decide (p = "secret/app/api")
          then (Some (mkApiSecret {[ "value" := VString "abc123" ]}), None)
          else if decide (p = "secret/app/db/user")
          then (Some (mkApiSecret {[ "value" := VString "u1" ]}), None)
          else if decide (p = "secret/app/db/pass")
          then (Some (mkApiSecret {[ "value" := VString "p1" ]}), None)
          else (None, None)).

Definition listingStore (apex : string) (keys : value) : Client :=
  mkClient (λ p, if decide (p = apex)
                 then (Some (mkApiSecret {[ "keys" := keys ]}), None)
                 else (None, None))
           (λ _, (None, None)).

Definition pluralDefinition (apex : string) : SecretDefinition :=
  mkSecretDefinition "VAULT_SECRETS_DB" "DB" apex "" ∅ true [].

Definition sampleDefinition : SecretDefinition :=
  mkSecretDefinition "VAULT_SECRETS_APP" "APP" "secret/app" ""
                     {[ "DB" := "old" ]} true ["secret/app/DB"].

Definition sampleResult : SecretResult :=
  mkSecretResult "secret/app/DB"
    (Some (mkApiSecret {[ "value" := VString "v1"; "user" := VString "u";
                          "pass" := VString "p" ]}))
    None.

Definition numberResult : SecretResult :=
  mkSecretResult "secret/app/DB"
    (Some (mkApiSecret {[ "value" := VString "v1"; "port" := VNumber 5432 ]}))
    None.

Definition firstDefinition : SecretDefinition :=
  mkSecretDefinition "VAULT_SECRET_API" "API" "secret/app/api" ""
                     {[ "api" := "abc123" ]} false ["secret/app/api"].

Definition secondDefinition : SecretDefinition :=
  mkSecretDefinition "VAULT_SECRETS_DB" "DB" "secret/app/db" "/out/db.json"
                     {[ "user" := "u1"; "pass" := "p1" ]} true
                     ["secret/app/db/user"; "secret/app/db/pass"].

(** Two workers, two paths; the second path completes first. *)
Definition sampleSchedule : list ParallelReader.Action :=
  [ ParallelReader.Submit; ParallelReader.Submit;
    ParallelReader.Receive 0; ParallelReader.Receive 1;
    ParallelReader.ReadStore 1; ParallelReader.Send 1;
    ParallelReader.ReadStore 0; ParallelReader.Send 0;
    ParallelReader.Next; ParallelReader.Next ].

Definition sampleFinalEngine : ParallelReader.Engine :=
  ParallelReader.mkEngine [] [] [ParallelReader.Idle; ParallelReader.Idle] []
    [ ParallelReader.resultOf sampleStore "secret/app/db/pass";
      ParallelReader.resultOf sampleStore "secret/app/db/user" ]
    [ "secret/app/db/pass"; "secret/app/db/user" ].

(** A second runtime, whose [range] visits a map in the opposite order. *)
Definition reversedRuntime : GoRuntime :=
  {| ToLower := SampleRuntime.mapBytes SampleRuntime.lowerByte;
     ToUpper := SampleRuntime.mapBytes SampleRuntime.upperByte;
     Marshal := SampleRuntime.marshal;
     rangeMap := λ A m, reverse (map_to_list m);
     rangeMap_perm := λ A m, reverse_Permutation (map_to_list m) |}.

(** A singular definition with its secret merged, and a destination. *)
Definition fetchedDefinition : SecretDefinition :=
  mkSecretDefinition "VAULT_SECRET_API" "API" "secret/app/api" "/out/api.txt"
                     {[ "api" := "abc123" ]} false ["secret/app/api"].

(** The singular definition of the sample environment, before its fetch. *)
Definition singularDefinition : SecretDefinition :=
  mkSecretDefinition "VAULT_SECRET_API" "API" "secret/app/api" "/out/api.txt"
                     ∅ false ["secret/app/api"].

(** ** Facts about the library functions *)

Section StringFacts.
Import GoStrings.

Lemma append_nil_r (s : string) : s ++ "" = s.
Proof. induction s as [|c s IH]; simpl; [done | by rewrite IH]. Qed.


Lemma length_append (a b : string) :
  String.length (a ++ b) = (String.length a + String.length b)%nat.
Proof. induction a as [|x a IH]; simpl; [done | by rewrite IH]. Qed.

Lemma HasPrefix_append (pre rest : string) : HasPrefix (pre ++ rest) pre = true.
Proof.
  unfold HasPrefix. induction pre as [|c pre IH]; simpl.
  - by destruct rest.
  - destruct (ascii_dec c c); [exact IH | done].
Qed.

Lemma HasPrefix_inv (s pre : string) :
  HasPrefix s pre = true → ∃ rest, s = pre ++ rest.
Proof.
  unfold HasPrefix. revert s. induction pre as [|c pre IH]; intros s Hp.
  - by exists s.
  - destruct s as [|d s]; simpl in Hp; [done |].
    destruct (ascii_dec c d) as [->|]; [| done].
    destruct (IH _ Hp) as [rest ->]. by exists rest.
Qed.

Lemma drop_append (pre rest : string) : drop (String.length pre) (pre ++ rest) = rest.
Proof. induction pre as [|c pre IH]; simpl; [by destruct rest | exact IH]. Qed.

Lemma TrimPrefix_append (pre rest : string) : TrimPrefix (pre ++ rest) pre = rest.
Proof. unfold TrimPrefix. by rewrite HasPrefix_append, drop_append. Qed.

(** The two storage prefixes exclude each other: the thirteenth byte is
    ['_'] in one and ['S'] in the other. *)
Lemma plural_not_singular (id : string) :
  HasPrefix (secretsStoragePathPrefix ++ id) secretStoragePathPrefix = false.
Proof. reflexivity. Qed.

Lemma Split_hd_entry (k v : string) :
  GoStrings.hasByte "=" k = false →
  hd "" (Split (GoOs.entry k v) "=") = k.
Proof.
  unfold GoOs.entry. induction k as [|c k IH]; simpl; intros Hk; [done |].
  apply orb_false_iff in Hk as [Hc Hk]. rewrite Hc.
  specialize (IH Hk). destruct (Split _ "=") as [|h t]; simpl in *; by subst.
Qed.

Lemma cutEntry_entry (k v : string) :
  GoStrings.hasByte "=" k = false →
  GoOs.cutEntry (GoOs.entry k v) = Some (k, v).
Proof.
  unfold GoOs.entry. induction k as [|c k IH]; simpl in *; intros Hk; [done |].
  apply orb_false_iff in Hk as [Hc Hk]. by rewrite Hc, (IH Hk).
Qed.

Lemma Getenv_first_entry (k v : string) (rest : list string) :
  GoStrings.hasByte "=" k = false → k ≠ "" →
  GoOs.Getenv (GoOs.entry k v :: rest) k = v.
Proof.
  intros Hk Hne. unfold GoOs.Getenv. case_decide; [done |]. simpl.
  rewrite (cutEntry_entry k v Hk). by case_decide.
Qed.

(** [path.Split] cuts after the final slash. *)
Lemma path_Split_spec (p : string) :
  p = (GoPath.Split p).1 ++ (GoPath.Split p).2
  ∧ GoStrings.hasByte "/" (GoPath.Split p).2 = false
  ∧ ((GoPath.Split p).1 = "" ∨ ∃ d, (GoPath.Split p).1 = d ++ "/").
Proof.
  induction p as [|c p (IH1 & IH2 & IH3)]; simpl.
  - split_and!; [done | done | by left].
  - destruct (GoPath.Split p) as [dir file] eqn:E; simpl in *.
    destruct (decide (dir = "")) as [->|Hne].
    + destruct (Ascii.eqb c "/") eqn:Ec; simpl.
      * apply Ascii.eqb_eq in Ec as ->. split_and!; [by f_equal | done |].
        right. by exists "".
      * rewrite Ec. split_and!; [by f_equal | done | by left].
    + simpl. split_and!; [by f_equal | done |].
      right. destruct IH3 as [?|[d ->]]; [done |]. by exists (String c d).
Qed.

End StringFacts.

(** ** Joining a child name onto an apex *)

Section PathFacts.












End PathFacts.

(** ** Reasoning about runs *)

Section MonadFacts.

Lemma bind_Done_inv {A B} (m : M A) (f : A → M B) w b w' out :
  (m ≫= f) w = (Done b, w', out) →
  ∃ a w1 out1 out2,
    m w = (Done a, w1, out1) ∧ f a w1 = (Done b, w', out2)
    ∧ out = (out1 ++ out2)%list.
Proof.
  unfold mbind, M_bind. destruct (m w) as [[[a| | |] w1] out1]; try done.
  destruct (f a w1) as [[o w2] out2] eqn:Ef. intros [= -> -> <-].
  by exists a, w1, out1, out2.
Qed.

Lemma bind_Done {A B} (m : M A) (f : A → M B) w a w1 out1 :
  m w = (Done a, w1, out1) →
  (m ≫= f) w = (let '(o, w2, out2) := f a w1 in (o, w2, (out1 ++ out2)%list)).
Proof. unfold mbind, M_bind. by intros ->. Qed.

Lemma bind_Fatal {A B} (m : M A) (f : A → M B) w e w1 out1 :
  m w = (Fatal e, w1, out1) → (m ≫= f) w = (Fatal e, w1, out1).
Proof. unfold mbind, M_bind. by intros ->. Qed.

Lemma bind_Panic {A B} (m : M A) (f : A → M B) w p w1 out1 :
  m w = (Panic p, w1, out1) → (m ≫= f) w = (Panic p, w1, out1).
Proof. unfold mbind, M_bind. by intros ->. Qed.

Lemma bind_Blocked {A B} (m : M A) (f : A → M B) w w1 out1 :
  m w = (Blocked, w1, out1) → (m ≫= f) w = (Blocked, w1, out1).
Proof. unfold mbind, M_bind. by intros ->. Qed.

Lemma run_nil_l {A} (x : Outcome A * World * list LogLine) :
  (let '(o, w, out) := x in (o, w, ([] ++ out)%list)) = x.
Proof. by destruct x as [[o w] out]. Qed.

Lemma bind_assoc {A B C} (m : M A) (f : A → M B) (g : B → M C) w :
  ((m ≫= f) ≫= g) w = (m ≫= (λ a, f a ≫= g)) w.
Proof.
  unfold mbind, M_bind. destruct (m w) as [[[a| | |] w1] out1]; try done.
  destruct (f a w1) as [[[b| | |] w2] out2]; try done.
  destruct (g b w2) as [[o w3] out3]. by rewrite app_assoc.
Qed.

Lemma forM__app {A} (f : A → M unit) (l1 l2 : list A) w :
  forM_ f (l1 ++ l2)%list w = (forM_ f l1 ;; forM_ f l2) w.
Proof.
  revert w. induction l1 as [|x l1 IH]; intros w; simpl.
  - unfold mbind, M_bind, mret, M_ret. by destruct (forM_ f l2 w) as [[o w'] out].
  - rewrite bind_assoc.
    destruct (f x w) as [[[[]| | |] w1] out1] eqn:E.
    + rewrite !(bind_Done _ _ _ _ _ _ E). by rewrite IH.
    + by rewrite !(bind_Fatal _ _ _ _ _ _ E).
    + by rewrite !(bind_Panic _ _ _ _ _ _ E).
    + by rewrite !(bind_Blocked _ _ _ _ _ E).
Qed.

Lemma foldM_app {A S} (f : S → A → M S) (s : S) (l1 l2 : list A) w :
  foldM f s (l1 ++ l2)%list w = (s' ← foldM f s l1; foldM f s' l2) w.
Proof.
  revert s w. induction l1 as [|x l1 IH]; intros s w; simpl.
  - unfold mbind, M_bind, mret, M_ret. by destruct (foldM f s l2 w) as [[o w'] out].
  - rewrite bind_assoc.
    destruct (f s x w) as [[[s1| | |] w1] out1] eqn:E.
    + rewrite !(bind_Done _ _ _ _ _ _ E). by rewrite IH.
    + by rewrite !(bind_Fatal _ _ _ _ _ _ E).
    + by rewrite !(bind_Panic _ _ _ _ _ _ E).
    + by rewrite !(bind_Blocked _ _ _ _ _ E).
Qed.

End MonadFacts.

(** ** Definitions from the environment *)

(** C2 (as amended): for every table of the environment and every entry of
    it, with [envKey] the text before its first ['='] and [apex] the value
    the environment gives for [envKey], when [apex] is not empty: a name
    [VAULT_SECRET_<id>] gives the definition with [SecretID = id], that
    apex, [paths = [apex]] and [plural = false]; a name [VAULT_SECRETS_<id>]
    gives the definition with [SecretID = id], that apex, [plural = true]
    and no path yet; any other name gives no definition. *)
Theorem newDefinition_by_prefix (table : list string) (env : string) :
  GoOs.Getenv table (hd "" (GoStrings.Split env "=")) ≠ "" →
  (∀ id, hd "" (GoStrings.Split env "=") = secretStoragePathPrefix ++ id →
     newDefinition (hd "" (GoStrings.Split env "="))
                   (GoOs.Getenv table (hd "" (GoStrings.Split env "=")))
     = Some (mkSecretDefinition (secretStoragePathPrefix ++ id) id
               (GoOs.Getenv table (secretStoragePathPrefix ++ id)) "" ∅ false
               [GoOs.Getenv table (secretStoragePathPrefix ++ id)]))
  ∧ (∀ id, hd "" (GoStrings.Split env "=") = secretsStoragePathPrefix ++ id →
     newDefinition (hd "" (GoStrings.Split env "="))
                   (GoOs.Getenv table (hd "" (GoStrings.Split env "=")))
     = Some (mkSecretDefinition (secretsStoragePathPrefix ++ id) id
               (GoOs.Getenv table (secretsStoragePathPrefix ++ id)) "" ∅ true []))
  ∧ ((∀ id, hd "" (GoStrings.Split env "=") ≠ secretStoragePathPrefix ++ id) →
     (∀ id, hd "" (GoStrings.Split env "=") ≠ secretsStoragePathPrefix ++ id) →
     newDefinition (hd "" (GoStrings.Split env "="))
                   (GoOs.Getenv table (hd "" (GoStrings.Split env "=")))
     = None).
Proof.
  set (envKey := hd "" (GoStrings.Split env "=")).
  intros Hapex. unfold newDefinition.
  destruct (decide (GoOs.Getenv table envKey = "")) as [?|_]; [done |].
  split_and!.
  - intros id ->. by rewrite HasPrefix_append, TrimPrefix_append.
  - intros id ->.
    by rewrite plural_not_singular, HasPrefix_append, TrimPrefix_append.
  - intros Hs Hp.
    destruct (GoStrings.HasPrefix envKey secretStoragePathPrefix) eqn:E1.
    { apply HasPrefix_inv in E1 as [id ?]. by destruct (Hs id). }
    destruct (GoStrings.HasPrefix envKey secretsStoragePathPrefix) eqn:E2.
    { apply HasPrefix_inv in E2 as [id ?]. by destruct (Hp id). }
    done.
Qed.

(** The two entries of the sample environment that are secret references. *)
Lemma newDefinition_by_prefix_witness :
  newDefinition "VAULT_SECRET_API" "secret/app/api"
  = Some (mkSecretDefinition "VAULT_SECRET_API" "API" "secret/app/api" "" ∅
            false ["secret/app/api"])
  ∧ newDefinition "VAULT_SECRETS_DB" "secret/app/db"
    = Some (mkSecretDefinition "VAULT_SECRETS_DB" "DB" "secret/app/db" "" ∅
              true []).
Proof.
  split.
  - refine (proj1 (newDefinition_by_prefix sampleTable
                     "VAULT_SECRET_API=secret/app/api" _) "API" _).
    + vm_compute. discriminate.
    + reflexivity.
  - refine (proj1 (proj2 (newDefinition_by_prefix sampleTable
                            "VAULT_SECRETS_DB=secret/app/db" _)) "DB" _).
    + vm_compute. discriminate.
    + reflexivity.
Defined.

(** C2, counterexample: the environment whose only entry is
    [VAULT_SECRET_TOKEN=] has a variable with the singular prefix, and the
    run builds no definition for it, because its value is empty. *)
Lemma empty_value_gives_no_definition :
  GoOs.Environ ["VAULT_SECRET_TOKEN="] = ["VAULT_SECRET_TOKEN="]
  ∧ hd "" (GoStrings.Split "VAULT_SECRET_TOKEN=" "=") = secretStoragePathPrefix ++ "TOKEN"
  ∧ newDefinition "VAULT_SECRET_TOKEN"
      (GoOs.Getenv ["VAULT_SECRET_TOKEN="] "VAULT_SECRET_TOKEN") = None
  ∧ (SecretFetcher (rt := SampleRuntime.runtime) emptyStore
       (mkConfig 1 "/payload" true) (worldOf ["VAULT_SECRET_TOKEN="])).1.1
    = Done [].
Proof. repeat split; vm_compute; reflexivity. Qed.

(** ** Destination of a definition *)

Lemma firstNonEmpty_cons (s : string) (rest : list string) :
  firstNonEmpty (s :: rest) = if decide (s ≠ "") then s else firstNonEmpty rest.
Proof.
  unfold firstNonEmpty. rewrite filter_cons. by destruct (decide (s ≠ "")).
Qed.

(** C5: the destination of a definition is the first non-empty value among
    the environment's values for [DAYTONA_SECRET_DESTINATION_] followed by
    the identifier as given, in lower case, and in upper case, in that
    order; so the variant as given wins when it is set, the lower-case one
    when only that and the upper-case one are set; [lookupDestination]
    returns it and changes nothing. *)
Theorem resolveDestination_first_non_empty {rt : GoRuntime}
        (table : list string) (secretID : string) :
  resolveDestination table secretID
  = firstNonEmpty (GoOs.Getenv table <$> destinationVariables secretID)
  ∧ (∀ w, lookupDestination secretID w
          = (Done (firstNonEmpty
                     (GoOs.Getenv (environ w) <$> destinationVariables secretID)),
             w, [])).
Proof.
  assert (∀ t, resolveDestination t secretID
               = firstNonEmpty (GoOs.Getenv t <$> destinationVariables secretID)) as Heq.
  { intros t. unfold resolveDestination, destinationVariables.
    rewrite !fmap_cons, !firstNonEmpty_cons.
    repeat case_decide; done. }
  split; [apply Heq |].
  intros w. unfold lookupDestination. by rewrite Heq.
Qed.

(** The spec's example: [DAYTONA_SECRET_DESTINATION_foo=/tmp/x] is found
    for the identifiers [FOO], [foo] and [Foo]. *)
Example destination_any_case :
  let table := ["DAYTONA_SECRET_DESTINATION_foo=/tmp/x"] in
  resolveDestination (rt := SampleRuntime.runtime) table "FOO" = "/tmp/x"
  ∧ resolveDestination (rt := SampleRuntime.runtime) table "foo" = "/tmp/x"
  ∧ resolveDestination (rt := SampleRuntime.runtime) table "Foo" = "/tmp/x".
Proof. repeat split; vm_compute; reflexivity. Qed.

Example destination_as_given_wins :
  let table := [ "DAYTONA_SECRET_DESTINATION_foo=/tmp/lower";
                 "DAYTONA_SECRET_DESTINATION_FOO=/tmp/upper";
                 "DAYTONA_SECRET_DESTINATION_Foo=/tmp/given" ] in
  resolveDestination (rt := SampleRuntime.runtime) table "Foo" = "/tmp/given".
Proof. vm_compute; reflexivity. Qed.

(** ** Merging a fetch result: [addSecrets] *)

Section MergeFacts.
Context {rt : GoRuntime}.

Lemma elem_of_rangeMap {A} (m : gmap string A) (k : string) (v : A) :
  (k, v) ∈ rangeMap m ↔ m !! k = Some v.
Proof. by rewrite (rangeMap_perm A m), elem_of_map_to_list. Qed.

Lemma NoDup_rangeMap {A} (m : gmap string A) : NoDup (rangeMap m).*1.
Proof. rewrite (rangeMap_perm A m). apply NoDup_fst_map_to_list. Qed.

Lemma secretKey_default (keyName : string) :
  secretKey keyName defaultKeyName = keyName.
Proof. unfold secretKey. by case_decide. Qed.

Lemma secretKey_other (keyName k : string) :
  k ≠ defaultKeyName → secretKey keyName k = keyName ++ "_" ++ k.
Proof. unfold secretKey. by case_decide. Qed.

Lemma append_neq_self (a b : string) : a ≠ a ++ String "_" b.
Proof.
  intros Heq. apply (f_equal String.length) in Heq.
  rewrite length_append in Heq. simpl in Heq. lia.
Qed.

(** Two attributes of one result never share a key of the definition. *)
Lemma secretKey_inj (keyName : string) : Inj (=) (=) (secretKey keyName).
Proof.
  intros k1 k2. unfold secretKey. repeat case_decide; subst; simpl; intros Heq.
  - done.
  - by destruct (append_neq_self keyName k2).
  - by destruct (append_neq_self keyName k1).
  - apply (inj (String.append keyName)) in Heq. by injection Heq.
Qed.

Lemma mergeData_inv keyName kvs acc w m w' out :
  mergeData keyName kvs acc w = (Done m, w', out) →
  w' = w ∧ out = []
  ∧ (∀ k v, (k, v) ∈ kvs → ∃ s, v = VString s)
  ∧ (NoDup kvs.*1 →
     ∀ k s, (k, VString s) ∈ kvs → m !! secretKey keyName k = Some s)
  ∧ (∀ key, (∀ k v, (k, v) ∈ kvs → key ≠ secretKey keyName k) →
            m !! key = acc !! key).
Proof.
  revert acc. induction kvs as [|[k v] rest IH]; intros acc; simpl.
  - intros [= <- <- <-]. split_and!; try done.
    + intros k v Hin. by apply elem_of_nil in Hin.
    + intros _ k s Hin. by apply elem_of_nil in Hin.
  - intros Hrun. apply bind_Done_inv in Hrun as (s & w1 & o1 & o2 & Hs & Hrest & ->).
    destruct v; simpl in Hs; try done. injection Hs as <- <- <-.
    apply IH in Hrest as (-> & -> & Hstr & Hget & Hframe).
    split_and!; try done.
    + intros k' v' [[= -> ->]|Hin]%elem_of_cons; [by eexists | eauto].
    + intros [Hk Hnd]%NoDup_cons k' s' [[= -> ->]|Hin]%elem_of_cons.
      * rewrite Hframe; [by rewrite lookup_insert_eq |].
        intros k2 v2 Hin2 Heq%secretKey_inj. subst k2.
        apply Hk. apply list_elem_of_fmap. by exists (k, v2).
      * by apply Hget.
    + intros key Hkey. rewrite Hframe.
      * apply lookup_insert_ne. intros Heq. eapply Hkey; [left | done].
      * intros k2 v2 Hin2. apply (Hkey k2 v2). by right.
Qed.

Lemma mergeData_total keyName kvs acc w :
  (∀ k v, (k, v) ∈ kvs → ∃ s, v = VString s) →
  ∃ m, mergeData keyName kvs acc w = (Done m, w, []).
Proof.
  revert acc. induction kvs as [|[k v] rest IH]; intros acc Hstr; simpl.
  - by eexists.
  - destruct (Hstr k v) as [s ->]; [left |].
    destruct (IH (<[secretKey keyName k := s]> acc)) as [m Hm].
    { intros k' v' Hin. apply (Hstr k' v'). by right. }
    exists m. by rewrite (bind_Done _ _ _ s w []), Hm.
Qed.

Lemma mergeData_panics keyName kvs acc w :
  (∃ k v, (k, v) ∈ kvs ∧ ∀ s, v ≠ VString s) →
  ∃ v, v ∈ kvs.*2 ∧ (∀ s, v ≠ VString s)
       ∧ mergeData keyName kvs acc w = (Panic (NotAString v), w, []).
Proof.
  revert acc. induction kvs as [|[k v] rest IH]; intros acc (k0 & v0 & Hin & Hv0).
  - by apply elem_of_nil in Hin.
  - simpl. destruct v as [s| | | | |].
    { apply elem_of_cons in Hin as [[= -> ->]|Hin]; [by destruct (Hv0 s) |].
      destruct (IH (<[secretKey keyName k := s]> acc)) as (v & Hv & Hnot & Hrun).
      { by exists k0, v0. }
      exists v. split_and!; [by right | done |].
      by rewrite (bind_Done _ _ _ s w []), Hrun. }
    all: eexists; split_and!; [by left | by intros s | done].
Qed.

End MergeFacts.

Lemma addSecrets_Done_inv {rt : GoRuntime} (client : Client) (sd sd' : SecretDefinition)
      (r : SecretResult) (oerr : option error) (w w' : World) (out : list LogLine) :
  addSecrets client sd r w = (Done (sd', oerr), w', out) →
  ∃ secret m,
    Err r = None ∧ Secret r = Some secret ∧ oerr = None ∧ w' = w ∧ out = []
    ∧ sd' = withSecrets m sd
    ∧ mergeData (GoPath.Split (KeyPath r)).2 (rangeMap (Data secret)) (secrets sd) w
      = (Done m, w, []).
Proof.
  unfold addSecrets. destruct (Err r) as [e|]; [done |].
  destruct (Secret r) as [secret|]; [| done].
  intros (m & w1 & o1 & o2 & Hm & Hret & ->)%bind_Done_inv.
  injection Hret as <- <- <- <-.
  destruct (mergeData_inv _ _ _ _ _ _ _ Hm) as (-> & -> & _).
  by exists secret, m.
Qed.

(** C1: when a fetch result is merged into a definition, the friendly key
    name is what follows the final slash of the result's path; the
    attribute named [value] is stored in the definition's secrets under
    the friendly key name, every other attribute [k] under
    [<friendly key name>_k]; the stored value replaces whatever the
    definition held under that key (the last write wins), and every other
    key of the definition keeps its value. *)
Theorem addSecrets_stores_attributes {rt : GoRuntime} (client : Client)
        (sd sd' : SecretDefinition) (r : SecretResult) (oerr : option error)
        (w w' : World) (out : list LogLine) :
  addSecrets client sd r w = (Done (sd', oerr), w', out) →
  ∃ (secret : ApiSecret) (dir keyName : string),
    Secret r = Some secret
    ∧ GoPath.Split (KeyPath r) = (dir, keyName)
    ∧ KeyPath r = dir ++ keyName
    ∧ GoStrings.hasByte "/" keyName = false
    ∧ (∀ v, Data secret !! defaultKeyName = Some v →
            ∃ s, v = VString s ∧ secrets sd' !! keyName = Some s)
    ∧ (∀ k v, k ≠ defaultKeyName → Data secret !! k = Some v →
              ∃ s, v = VString s ∧ secrets sd' !! (keyName ++ "_" ++ k) = Some s)
    ∧ (∀ key, (∀ k, is_Some (Data secret !! k) → key ≠ secretKey keyName k) →
              secrets sd' !! key = secrets sd !! key).
Proof.
  intros (secret & m & _ & Hsec & _ & _ & _ & -> & Hm)%addSecrets_Done_inv.
  destruct (path_Split_spec (KeyPath r)) as (Hcat & Hfile & _).
  destruct (GoPath.Split (KeyPath r)) as [dir keyName] eqn:Hsplit.
  simpl in Hcat, Hfile, Hm.
  destruct (mergeData_inv _ _ _ _ _ _ _ Hm) as (_ & _ & Hstr & Hget & Hframe).
  specialize (Hget (NoDup_rangeMap _)).
  exists secret, dir, keyName. split_and!; try done.
  - intros v Hv%elem_of_rangeMap. destruct (Hstr _ _ Hv) as [s ->].
    exists s. split; [done |]. rewrite <- (secretKey_default keyName). by apply Hget.
  - intros k v Hk Hv%elem_of_rangeMap. destruct (Hstr _ _ Hv) as [s ->].
    exists s. split; [done |]. rewrite <- (secretKey_other keyName k Hk). by apply Hget.
  - intros key Hkey. apply Hframe. intros k v Hv%elem_of_rangeMap.
    apply Hkey. by exists v.
Qed.

(** The sample result merged into the sample definition: the old value of
    [DB] is replaced. *)
Lemma addSecrets_stores_attributes_witness :
  ∃ sd', addSecrets (rt := SampleRuntime.runtime) emptyStore sampleDefinition
                    sampleResult (worldOf []) = (Done (sd', None), worldOf [], [])
         ∧ secrets sd' !! "DB" = Some "v1"
         ∧ secrets sd' !! "DB_user" = Some "u"
         ∧ secrets sd' !! "DB_pass" = Some "p".
Proof.
  set (sd' := withSecrets
                {[ "DB" := "v1"; "DB_user" := "u"; "DB_pass" := "p" ]}
                sampleDefinition).
  assert (addSecrets (rt := SampleRuntime.runtime) emptyStore sampleDefinition
            sampleResult (worldOf []) = (Done (sd', None), worldOf [], [])) as Hrun.
  { vm_compute. reflexivity. }
  exists sd'. split; [exact Hrun |].
  destruct (addSecrets_stores_attributes (rt := SampleRuntime.runtime) _ _ _ _ _ _ _ _ Hrun)
    as (secret & dir & keyName & Hsec & Hsplit & _ & _ & Hdef & Hoth & _).
  injection Hsec as <-. injection Hsplit as <- <-.
  destruct (Hdef (VString "v1") eq_refl) as (s1 & [= <-] & H1).
  destruct (Hoth "user" (VString "u") ltac:(discriminate) eq_refl) as (s2 & [= <-] & H2).
  destruct (Hoth "pass" (VString "p") ltac:(discriminate) eq_refl) as (s3 & [= <-] & H3).
  split_and!; assumption.
Defined.

(** The spec's examples of the merge. *)
Example merge_default_key :
  (addSecrets (rt := SampleRuntime.runtime) emptyStore
     (mkSecretDefinition "VAULT_SECRET_DB" "DB" "secret/app/DB" "" ∅ false ["secret/app/DB"])
     (mkSecretResult "secret/app/DB" (Some (mkApiSecret {[ "value" := VString "v1" ]})) None)
     (worldOf [])).1.1
  = Done (mkSecretDefinition "VAULT_SECRET_DB" "DB" "secret/app/DB" ""
            {[ "DB" := "v1" ]} false ["secret/app/DB"], None).
Proof. vm_compute. reflexivity. Qed.

Example merge_named_keys :
  (addSecrets (rt := SampleRuntime.runtime) emptyStore
     (mkSecretDefinition "VAULT_SECRET_DB" "DB" "secret/app/DB" "" ∅ false ["secret/app/DB"])
     (mkSecretResult "secret/app/DB"
        (Some (mkApiSecret {[ "user" := VString "u"; "pass" := VString "p" ]})) None)
     (worldOf [])).1.1
  = Done (mkSecretDefinition "VAULT_SECRET_DB" "DB" "secret/app/DB" ""
            {[ "DB_user" := "u"; "DB_pass" := "p" ]} false ["secret/app/DB"], None).
Proof. vm_compute. reflexivity. Qed.

(** Two results of one definition that give the same key: the later
    merge wins. *)
Example merge_collision_last_write_wins :
  ('(d, _) ← addSecrets (rt := SampleRuntime.runtime) emptyStore
               (pluralDefinition "secret/app")
               (mkSecretResult "secret/app/a"
                  (Some (mkApiSecret {[ "b_c" := VString "first" ]})) None);
   addSecrets (rt := SampleRuntime.runtime) emptyStore d
     (mkSecretResult "secret/app/a_b"
        (Some (mkApiSecret {[ "c" := VString "second" ]})) None))
    (worldOf [])
  = (Done (withSecrets {[ "a_b_c" := "second" ]} (pluralDefinition "secret/app"), None),
     worldOf [], []).
Proof. vm_compute. reflexivity. Qed.

(** C10: for a result with no error and an attribute map, an attribute
    whose value is not a string makes the merge panic at the type
    assertion, with no error returned and no fatal log message; when every
    attribute value is a string the merge returns, with no error. *)
Theorem addSecrets_panics_on_non_string {rt : GoRuntime} (client : Client)
        (sd : SecretDefinition) (r : SecretResult) (secret : ApiSecret) (w : World) :
  Err r = None → Secret r = Some secret →
  ((∃ k v, Data secret !! k = Some v ∧ ∀ s, v ≠ VString s) →
   ∃ v, (∀ s, v ≠ VString s)
        ∧ addSecrets client sd r w = (Panic (NotAString v), w, []))
  ∧ ((∀ k v, Data secret !! k = Some v → ∃ s, v = VString s) →
     ∃ sd', addSecrets client sd r w = (Done (sd', None), w, [])).
Proof.
  intros Herr Hsec. unfold addSecrets. rewrite Herr, Hsec. split.
  - intros (k & v & Hv%elem_of_rangeMap & Hns).
    destruct (mergeData_panics (GoPath.Split (KeyPath r)).2 _ (secrets sd) w
                (ex_intro _ k (ex_intro _ v (conj Hv Hns)))) as (v' & _ & Hv' & Hrun).
    exists v'. split; [done |]. by rewrite (bind_Panic _ _ _ _ _ _ Hrun).
  - intros Hstr.
    destruct (mergeData_total (GoPath.Split (KeyPath r)).2
                (rangeMap (Data secret)) (secrets sd) w) as [m Hm].
    { intros k v Hv%elem_of_rangeMap. eauto. }
    exists (withSecrets m sd). by rewrite (bind_Done _ _ _ _ _ _ Hm).
Qed.

(** A number among the attributes, and the sample result with strings only. *)
Lemma addSecrets_panics_on_non_string_witness :
  (∃ v, (∀ s, v ≠ VString s)
        ∧ addSecrets (rt := SampleRuntime.runtime) emptyStore sampleDefinition
                     numberResult (worldOf []) = (Panic (NotAString v), worldOf [], []))
  ∧ (∃ sd', addSecrets (rt := SampleRuntime.runtime) emptyStore sampleDefinition
                       sampleResult (worldOf []) = (Done (sd', None), worldOf [], [])).
Proof.
  split.
  - refine (proj1 (addSecrets_panics_on_non_string (rt := SampleRuntime.runtime)
                     emptyStore sampleDefinition numberResult _ (worldOf [])
                     eq_refl eq_refl) _).
    exists "port", (VNumber 5432). split; [vm_compute; reflexivity | discriminate].
  - refine (proj2 (addSecrets_panics_on_non_string (rt := SampleRuntime.runtime)
                     emptyStore sampleDefinition sampleResult _ (worldOf [])
                     eq_refl eq_refl) _).
    intros k v Hv. apply elem_of_map_to_list in Hv.
    remember (map_to_list (Data _)) as l eqn:El. vm_compute in El. subst l.
    repeat (apply elem_of_cons in Hv as [[= -> ->]|Hv]; [by eexists |]).
    by apply elem_of_nil in Hv.
Defined.

Lemma mergeResult_Done_inv {rt : GoRuntime} (client : Client) (def def' : SecretDefinition)
      (r : SecretResult) (w w' : World) (out : list LogLine) :
  mergeResult client def r w = (Done def', w', out) →
  Err r = None ∧ ∃ secret m,
    Secret r = Some secret ∧ def' = withSecrets m def
    ∧ addSecrets client def r w = (Done (def', None), w, []).
Proof.
  unfold mergeResult. destruct (Err r) as [e|] eqn:He; [done |].
  intros ([d oerr] & w1 & o1 & o2 & Hadd & Hret & ->)%bind_Done_inv.
  pose proof Hadd as (secret & m & _ & Hs & -> & -> & -> & -> & _)%addSecrets_Done_inv.
  injection Hret as <- <- <-.
  split; [done |]. by exists secret, m.
Qed.

(** C6: a result that carries an error ends the run by [log.Fatal], and so
    does a result with no error and no secret (the store did not find a
    path it had listed); [addSecrets] itself ends the run in both cases;
    only a result with a secret and no error is merged. *)
Theorem mergeResult_fatal {rt : GoRuntime} (client : Client) (def : SecretDefinition)
        (r : SecretResult) (w : World) :
  (∀ e, Err r = Some e → mergeResult client def r w = (Fatal e, w, []))
  ∧ (Err r = None → Secret r = None →
     mergeResult client def r w
     = (Fatal (ErrListedNotFound (GoPath.Split (KeyPath r)).2 (KeyPath r)), w, []))
  ∧ (∀ e, Err r = Some e →
          addSecrets client def r w = (Fatal (ErrRetrieving (KeyPath r) e), w, []))
  ∧ (Err r = None → Secret r = None →
     addSecrets client def r w
     = (Fatal (ErrListedNotFound (GoPath.Split (KeyPath r)).2 (KeyPath r)), w, []))
  ∧ (∀ def' w' out, mergeResult client def r w = (Done def', w', out) →
       Err r = None ∧ ∃ secret m,
         Secret r = Some secret ∧ def' = withSecrets m def
         ∧ addSecrets client def r w = (Done (def', None), w, [])).
Proof.
  unfold mergeResult. split_and!.
  - by intros e ->.
  - intros He Hs. unfold addSecrets. rewrite He, Hs. reflexivity.
  - intros e He. unfold addSecrets. by rewrite He.
  - intros He Hs. unfold addSecrets. by rewrite He, Hs.
  - intros def' w' out Hrun. by apply mergeResult_Done_inv in Hrun.
Qed.

(** ** Expansion of a plural definition: [Walk] *)



Lemma walkKeys_inr (apex : string) (keys : list value) (acc ps : list string) :
  walkKeys apex keys acc = inr ps →
  ∃ names, keys = VString <$> names ∧ ps = (acc ++ (GoPath.Join apex <$> names))%list.
Proof.
  revert acc. induction keys as [|k keys IH]; intros acc; simpl.
  - intros [= <-]. exists []. by rewrite app_nil_r.
  - destruct k as [s| | | | |]; try done.
    intros (names & -> & ->)%IH. exists (s :: names). by rewrite <- app_assoc.
Qed.

Lemma Walk_unfold (client : Client) (sd : SecretDefinition) (w : World) :
  Walk client sd w
  = (let '(list, err) := Logical_List client (SecretApex sd) in
     match err with
     | Some e => mret (sd, Some (ErrListing (SecretApex sd) e))
     | None =>
         match list with
         | None => mret (sd, Some (ErrNoSecretsFound (SecretApex sd)))
         | Some l =>
             if decide (size (Data l) = 0) then
               mret (sd, Some (ErrNoSecretsFound (SecretApex sd)))
             else
               logLine (LogIteration (SecretApex sd));;
               match Data l !! "keys" with
               | Some (VSlice keys) =>
                   match walkKeys (SecretApex sd) keys [] with
                   | inl e => mret (sd, Some e)
                   | inr ps => mret (withPaths ps sd, None)
                   end
               | _ => mret (sd, Some (ErrListFormat (SecretApex sd)))
               end
         end
     end) (noteListed (SecretApex sd) w).
Proof.
  unfold Walk. rewrite (bind_Done _ _ _ _ _ _ eq_refl).
  destruct (Logical_List client (SecretApex sd)) as [list err].
  apply run_nil_l.
Qed.

(** An error of [Walk] comes with the definition unchanged, and leaves the
    requests to the reader as they were. *)
Lemma Walk_total (client : Client) (sd : SecretDefinition) (w : World) :
  ∃ sd' oerr out,
    Walk client sd w = (Done (sd', oerr), noteListed (SecretApex sd) w, out)
    ∧ (is_Some oerr → sd' = sd).
Proof.
  rewrite Walk_unfold.
  destruct (Logical_List client (SecretApex sd)) as [[l|] [e|]];
    try (eexists _, _, _; split; [reflexivity | done]).
  case_decide; [eexists _, _, _; split; [reflexivity | done] |].
  destruct (Data l !! "keys") as [[| | | |keys|]|];
    try (eexists _, _, _; split; [reflexivity | done]).
  destruct (walkKeys (SecretApex sd) keys []) as [e|ps] eqn:Ew.
  - eexists _, _, _. split; [reflexivity | done].
  - eexists _, _, _. split; [reflexivity | by intros [? [=]]].
Qed.



Example Walk_rejects_a_number :
  (Walk (listingStore "p" (VSlice [VString "A"; VNumber 7]))
        (pluralDefinition "p") (worldOf [])).1.1
  = Done (pluralDefinition "p", Some ErrNonStringName).
Proof. vm_compute. reflexivity. Qed.

Example Walk_rejects_a_string_payload :
  (Walk (listingStore "p" (VString "A")) (pluralDefinition "p") (worldOf [])).1.1
  = Done (pluralDefinition "p", Some (ErrListFormat "p")).
Proof. vm_compute. reflexivity. Qed.

Lemma Walk_success_inv (client : Client) (sd sd' : SecretDefinition)
      (w w' : World) (out : list LogLine) :
  Walk client sd w = (Done (sd', None), w', out) →
  ∃ l names,
    Logical_List client (SecretApex sd) = (Some l, None)
    ∧ Data l !! "keys" = Some (VSlice (VString <$> names))
    ∧ sd' = withPaths (GoPath.Join (SecretApex sd) <$> names) sd
    ∧ w' = noteListed (SecretApex sd) w.
Proof.
  rewrite Walk_unfold.
  destruct (Logical_List client (SecretApex sd)) as [[l|] [e|]]; try done.
  case_decide; [done |].
  destruct (Data l !! "keys") as [[| | | |keys|]|] eqn:Hkeys; try done.
  destruct (walkKeys (SecretApex sd) keys []) as [e|ps] eqn:Ew; [done |].
  intros [= <- <- <-].
  apply walkKeys_inr in Ew as (names & -> & ->).
  by exists l, names.
Qed.

Lemma forM__AsyncRequestKeyPath (ps : list string) (w : World) :
  ∃ w', forM_ AsyncRequestKeyPath ps w = (Done (), w', [])
        ∧ submitted w' = (submitted w ++ ps)%list
        ∧ inflight w' = (inflight w ++ ps)%list
        ∧ environ w' = environ w ∧ files w' = files w
        ∧ listed w' = listed w.
Proof.
  revert w. induction ps as [|p ps IH]; intros w; simpl.
  - exists w. by rewrite !app_nil_r.
  - destruct (IH (noteSubmitted p w)) as (w' & Hrun & Hs & Hi & He & Hf & Hl).
    exists w'. rewrite (bind_Done _ _ _ () (noteSubmitted p w) [] eq_refl), Hrun.
    simpl in *. by rewrite Hs, Hi, <- !app_assoc.
Qed.

Section FetchFacts.
Context {rt : GoRuntime}.

Lemma takeResult_Done_inv (client : Client) (config : Config)
      (d d' : SecretDefinition) (w w' : World) (out : list LogLine) :
  takeResult client config d w = (Done d', w', out) →
  ∃ m, d' = withSecrets m d.
Proof.
  unfold takeResult.
  intros (r & w1 & o1 & o2 & _ & Hmerge & _)%bind_Done_inv.
  apply mergeResult_Done_inv in Hmerge as (_ & _ & m & _ & -> & _). by exists m.
Qed.

Lemma foldM_takeResult_paths (client : Client) (config : Config) {A} (l : list A)
      (d d' : SecretDefinition) (w w' : World) (out : list LogLine) :
  foldM (λ d _, takeResult client config d) d l w = (Done d', w', out) →
  paths d' = paths d ∧ plural d' = plural d ∧ EnvKey d' = EnvKey d
  ∧ SecretID d' = SecretID d ∧ SecretApex d' = SecretApex d
  ∧ OutputDestination d' = OutputDestination d.
Proof.
  revert d w out. induction l as [|x l IH]; intros d w out; simpl.
  - by intros [= <- <- <-].
  - intros (d1 & w1 & o1 & o2 & Htake & Hrest & _)%bind_Done_inv.
    apply takeResult_Done_inv in Htake as [m ->].
    by apply IH in Hrest.
Qed.

Lemma mergeData_world (keyName : string) (kvs : list (string * value))
      (acc : gmap string string) (w w' : World) o (out : list LogLine) :
  mergeData keyName kvs acc w = (o, w', out) → w' = w ∧ o ≠ Blocked.
Proof.
  revert acc. induction kvs as [|[k v] rest IH]; intros acc; simpl.
  - by intros [= <- <- <-].
  - destruct v as [s| | | | |]; simpl; try by intros [= <- <- <-].
    rewrite (bind_Done _ _ _ s w [] eq_refl).
    destruct (mergeData keyName rest _ w) as [[o1 w1] out1] eqn:E.
    intros [= <- <- <-]. by apply IH in E.
Qed.

Lemma mergeResult_world (client : Client) (def : SecretDefinition)
      (r : SecretResult) (w w' : World) o (out : list LogLine) :
  mergeResult client def r w = (o, w', out) → w' = w ∧ o ≠ Blocked.
Proof.
  unfold mergeResult, addSecrets.
  destruct (Err r); [by intros [= <- <- <-] |].
  destruct (Secret r) as [secret|]; [| by intros [= <- <- <-]].
  rewrite bind_assoc.
  destruct (mergeData (GoPath.Split (KeyPath r)).2 (rangeMap (Data secret))
                      (secrets def) w) as [[[m| | |] w1] out1] eqn:E;
    pose proof (mergeData_world _ _ _ _ _ _ _ E) as [-> Hnb].
  - rewrite (bind_Done _ _ _ _ _ _ E). by intros [= <- <- <-].
  - rewrite (bind_Fatal _ _ _ _ _ _ E). by intros [= <- <- <-].
  - rewrite (bind_Panic _ _ _ _ _ _ E). by intros [= <- <- <-].
  - done.
Qed.

(** With a worker and a request in flight, the reader returns the result
    of one of the requests in flight, and that request is no longer in
    flight. *)
Lemma ReadSecretResult_run (client : Client) (n : nat) (w : World) :
  inflight w ≠ [] →
  ∃ r w', ReadSecretResult client (S n) w = (Done r, w', [])
          ∧ KeyPath r ∈ inflight w
          ∧ List.length (inflight w') = List.length (inflight w) - 1
          ∧ submitted w' = submitted w.
Proof.
  intros Hne. unfold ReadSecretResult.
  destruct (inflight w) as [|p0 rest] eqn:Ei; [done |].
  set (i := hd 0 (completion w) `mod` List.length (p0 :: rest)).
  assert (i < List.length (p0 :: rest)) as Hi.
  { apply Nat.mod_upper_bound. simpl. lia. }
  destruct (lookup_lt_is_Some_2 _ _ Hi) as [p Hp]. rewrite Hp. simpl.
  destruct (Logical_Read client p) as [secret err].
  eexists _, _. split_and!; [reflexivity | | | done].
  - simpl. by eapply list_elem_of_lookup_2.
  - simpl. rewrite length_delete; [done | by eexists].
Qed.

(** The loop that takes the results, entered with as many requests in
    flight as it has turns, never blocks, and leaves no request in flight
    when it completes. *)
Lemma takeResults_closed (client : Client) (config : Config) {A} (l : list A)
      (d : SecretDefinition) (w w' : World) o (out : list LogLine) :
  (1 ≤ Workers config)%nat →
  List.length (inflight w) = List.length l →
  foldM (λ d _, takeResult client config d) d l w = (o, w', out) →
  o ≠ Blocked
  ∧ (∀ d', o = Done d' → inflight w' = [] ∧ submitted w' = submitted w).
Proof.
  intros Hworkers. destruct (Workers config) as [|n] eqn:En; [lia |].
  revert d w out. induction l as [|x l IH]; intros d w out Hlen; simpl.
  - intros [= <- <- <-]. split; [done |]. intros d' _.
    split; [by apply nil_length_inv | done].
  - destruct (ReadSecretResult_run client n w) as (r & w1 & Hread & _ & Hlen1 & Hsub1).
    { intros Hnil. by rewrite Hnil in Hlen. }
    change (takeResult client config d)
      with (ReadSecretResult client (Workers config) ≫= mergeResult client d).
    rewrite En, bind_assoc, (bind_Done _ _ _ _ _ _ Hread).
    simpl.
    destruct (mergeResult client d r w1) as [[[d1| | |] w2] o2] eqn:Em;
      pose proof (mergeResult_world _ _ _ _ _ _ _ Em) as [-> Hnb]; try done.
    + rewrite (bind_Done _ _ _ _ _ _ Em).
      destruct (foldM _ d1 l w1) as [[o3 w3] out3] eqn:Ef. intros [= <- <- <-].
      apply IH in Ef as [Hnb3 Hdone]; [| simpl in Hlen; lia].
      split; [done |]. intros d' Hd'. destruct (Hdone d' Hd') as [-> ->]. done.
    + rewrite (bind_Fatal _ _ _ _ _ _ Em). by intros [= <- <- <-].
    + rewrite (bind_Panic _ _ _ _ _ _ Em). by intros [= <- <- <-].
Qed.

(** Lines 119-132 are a closed batch: with at least one worker and no
    request in flight before, the run never blocks on a definition, and
    when the definition completes, its paths are what was submitted and
    one result has been taken for each. *)
Lemma fetchDefinition_closed_batch (client : Client) (config : Config)
      (def : SecretDefinition) (w w' : World) o (out : list LogLine) :
  (1 ≤ Workers config)%nat → inflight w = [] →
  fetchDefinition client config def w = (o, w', out) →
  o ≠ Blocked
  ∧ (∀ def', o = Done def' →
       inflight w' = [] ∧ submitted w' = (submitted w ++ paths def')%list).
Proof.
  intros Hworkers Hin. unfold fetchDefinition.
  assert (∃ o1 w1 out1,
    (if plural def
     then '(def', err) ← Walk client def;
          match err with Some e => fatal e | None => mret def' end
     else mret def) w = (o1, w1, out1)
    ∧ o1 ≠ Blocked ∧ inflight w1 = [] ∧ submitted w1 = submitted w)
    as (o1 & w1 & out1 & Hfirst & Hnb1 & Hin1 & Hsub1).
  { destruct (plural def); [| by eexists _, _, _].
    destruct (Walk_total client def w) as (sd' & oerr & out0 & Hwalk & _).
    rewrite (bind_Done _ _ _ _ _ _ Hwalk).
    destruct oerr; by eexists _, _, _. }
  destruct o1 as [d1| | |]; [| | | done].
  - rewrite (bind_Done _ _ _ _ _ _ Hfirst).
    destruct (forM__AsyncRequestKeyPath (paths d1) w1)
      as (w2 & Hsub & Hs2 & Hi2 & _).
    rewrite (bind_Done _ _ _ _ _ _ Hsub). simpl.
    destruct (foldM _ d1 (paths d1) w2) as [[o3 w3] out3] eqn:Ef.
    intros [= <- <- <-].
    pose proof Ef as [Hnb3 Hdone]%takeResults_closed;
      [| done | by rewrite Hi2, Hin1].
    split; [done |]. intros def' ->.
    destruct (Hdone def' eq_refl) as [-> ->].
    apply foldM_takeResult_paths in Ef as (-> & _).
    by rewrite Hs2, Hsub1.
  - rewrite (bind_Fatal _ _ _ _ _ _ Hfirst). by intros [= <- <- <-].
  - rewrite (bind_Panic _ _ _ _ _ _ Hfirst). by intros [= <- <- <-].
Qed.

End FetchFacts.

(** X11: for a plural definition, when the list call of the store returns
    an error, no secret, or a secret with an empty data map, [Walk] fails
    and the run ends by [log.Fatal] (lines 114-117) with no request made to
    the reader for that definition; and a plural definition whose fetch
    completes was listed without error, with a [keys] sequence in the
    listing, and has one path for each element of that sequence. *)
Theorem plural_expansion_failure_is_fatal {rt : GoRuntime} (client : Client)
        (config : Config) (def : SecretDefinition) (w : World) :
  plural def = true →
  ((is_Some (Logical_List client (SecretApex def)).2
    ∨ (Logical_List client (SecretApex def)).1 = None
    ∨ ∃ l, (Logical_List client (SecretApex def)).1 = Some l ∧ Data l = ∅) →
   ∃ e, (Walk client def w).1.1 = Done (def, Some e)
        ∧ fetchDefinition client config def w
          = (Fatal e, noteListed (SecretApex def) w, [])
        ∧ submitted (noteListed (SecretApex def) w) = submitted w
        ∧ inflight (noteListed (SecretApex def) w) = inflight w)
  ∧ (∀ def' w' out,
       fetchDefinition client config def w = (Done def', w', out) →
       ∃ l keys,
         Logical_List client (SecretApex def) = (Some l, None)
         ∧ Data l !! "keys" = Some (VSlice keys)
         ∧ List.length (paths def') = List.length keys).
Proof.
  intros Hplural. split.
  - intros Hempty.
    assert (∃ e, Walk client def w
                 = (Done (def, Some e), noteListed (SecretApex def) w, [])) as [e He].
    { rewrite Walk_unfold.
      destruct (Logical_List client (SecretApex def)) as [[l|] [e|]]; simpl in *;
        try by eexists.
      destruct Hempty as [[? [=]]|[[=]|(l' & [= <-] & Hl)]].
      rewrite Hl, map_size_empty. case_decide; [by eexists | done]. }
    exists e. rewrite He. split_and!; try done.
    unfold fetchDefinition. rewrite Hplural.
    apply bind_Fatal. by rewrite (bind_Done _ _ _ _ _ _ He).
  - intros def' w' out. unfold fetchDefinition. rewrite Hplural.
    intros (d1 & w1 & o1 & o2 & Hwalk & Hrest & _)%bind_Done_inv.
    apply bind_Done_inv in Hwalk as ([d oerr] & w2 & o3 & o4 & Hwalk & Hret & _).
    destruct oerr as [e|]; [done |]. injection Hret as <- <- <-.
    apply Walk_success_inv in Hwalk as (l & names & Hlist & Hkeys & -> & ->).
    apply bind_Done_inv in Hrest as ([] & w3 & o5 & o6 & _ & Hfold & _).
    apply foldM_takeResult_paths in Hfold as (Hpaths & _).
    exists l, (VString <$> names). rewrite Hpaths. simpl.
    split_and!; [done | done | by rewrite !length_fmap].
Qed.

(** A store with nothing under the apex. *)
Lemma plural_expansion_failure_is_fatal_witness :
  fetchDefinition (rt := SampleRuntime.runtime) emptyStore (mkConfig 2 "/payload" false)
                  (pluralDefinition "secret/app/db") (worldOf [])
  = (Fatal (ErrNoSecretsFound "secret/app/db"),
     noteListed "secret/app/db" (worldOf []), []).
Proof.
  destruct (proj1 (plural_expansion_failure_is_fatal (rt := SampleRuntime.runtime)
                     emptyStore (mkConfig 2 "/payload" false)
                     (pluralDefinition "secret/app/db") (worldOf []) eq_refl)
                  (or_intror (or_introl eq_refl)))
    as (e & Hwalk & Hrun & _).
  injection Hwalk as <-. exact Hrun.
Defined.

(** C3: the code at the failing input.  The claim has every plural
    definition with an empty listing fail at expansion, so that a plural
    definition that proceeds to fetching has at least one path.  [Walk]
    attempts it: a listing that is nil or whose data map is empty gives
    [no secrets found under] and the run ends by [log.Fatal] (first
    conjunct, at the same apex).  But the guard of line 236 measures the
    data map, not the [keys] sequence: when the store lists the apex with
    an empty [keys] sequence, [Walk] succeeds, the definition proceeds to
    fetching with no path, no request is made, and the run completes with
    that definition. *)
Lemma empty_keys_listing_is_accepted :
  fetchDefinition (rt := SampleRuntime.runtime)
      (mkClient (λ _, (Some (mkApiSecret ∅), None)) (λ _, (None, None)))
      (mkConfig 2 "/payload" false)
      (pluralDefinition "secret/app/db") (worldOf [])
    = (Fatal (ErrNoSecretsFound "secret/app/db"),
       noteListed "secret/app/db" (worldOf []), [])
  ∧ plural (pluralDefinition "secret/app/db") = true
  ∧ Logical_List (listingStore "secret/app/db" (VSlice [])) "secret/app/db"
    = (Some (mkApiSecret {[ "keys" := VSlice [] ]}), None)
  ∧ fetchDefinition (rt := SampleRuntime.runtime)
      (listingStore "secret/app/db" (VSlice [])) (mkConfig 2 "/payload" false)
      (pluralDefinition "secret/app/db") (worldOf [])
    = (Done (pluralDefinition "secret/app/db"),
       noteListed "secret/app/db" (worldOf []), [LogIteration "secret/app/db"])
  ∧ paths (pluralDefinition "secret/app/db") = []
  ∧ submitted (noteListed "secret/app/db" (worldOf [])) = []
  ∧ (SecretFetcher (rt := SampleRuntime.runtime)
       (listingStore "secret/app/db" (VSlice [])) (mkConfig 2 "/payload" false)
       (worldOf ["VAULT_SECRETS_DB=secret/app/db"])).1.1
    = Done [pluralDefinition "secret/app/db"].
Proof. repeat split; vm_compute; reflexivity. Qed.

(** ** Output of the definitions *)

Section OutputFacts.
Context {rt : GoRuntime}.

Lemma writeJSONSecrets_run (m : gmap string string) (filepath : string) (w : World) :
  writeJSONSecrets m filepath w
  = if decide (filepath ∈ readonly w)
    then (Done (Some (ErrWriteFile filepath (IOError filepath))), w, [])
    else (Done None, setFile filepath (Marshal m) w,
          [LogWroteSecrets (size m) filepath]).
Proof.
  unfold writeJSONSecrets, writeFile, mbind, M_bind. by case_decide.
Qed.

(** A definition whose output completes with a payload path configured
    leaves its own JSON at that path. *)
Lemma outputDefinition_payload (config : Config) (def : SecretDefinition)
      (w w' : World) (out : list LogLine) :
  SecretPayloadPath config ≠ "" →
  outputDefinition config def w = (Done (), w', out) →
  files w' !! SecretPayloadPath config = Some (Marshal (secrets def)).
Proof.
  intros Hpath. unfold outputDefinition.
  intros ([] & w1 & o1 & o2 & _ & Hrest & _)%bind_Done_inv.
  apply bind_Done_inv in Hrest as ([] & w2 & o3 & o4 & _ & Hrest & _).
  destruct (decide (SecretPayloadPath config ≠ "")) as [_|?]; [| done].
  apply bind_Done_inv in Hrest as (err & w3 & o5 & o6 & Hwrite & Hret & _).
  rewrite writeJSONSecrets_run in Hwrite.
  destruct (decide (SecretPayloadPath config ∈ readonly w2)).
  - injection Hwrite as <- <- <-. done.
  - injection Hwrite as <- <- <-. injection Hret as <- <-.
    apply lookup_insert_eq.
Qed.

Lemma forM__snoc_Done {A} (f : A → M unit) (l : list A) (x : A)
      (w w' : World) (out : list LogLine) :
  forM_ f (l ++ [x])%list w = (Done (), w', out) →
  ∃ w1 out1 out2, forM_ f l w = (Done (), w1, out1) ∧ f x w1 = (Done (), w', out2).
Proof.
  rewrite forM__app.
  intros ([] & w1 & o1 & o2 & Hl & Hx & _)%bind_Done_inv. simpl in Hx.
  apply bind_Done_inv in Hx as ([] & w2 & o3 & o4 & Hx & [= <- <-] & _).
  by exists w1, o1, o3.
Qed.

Lemma forM__prefix_Done {A} (f : A → M unit) (l1 l2 : list A)
      (w w' : World) (out : list LogLine) :
  forM_ f (l1 ++ l2)%list w = (Done (), w', out) →
  ∃ w1 out1, forM_ f l1 w = (Done (), w1, out1).
Proof.
  rewrite forM__app.
  intros ([] & w1 & o1 & o2 & Hl & _)%bind_Done_inv. by exists w1, o1.
Qed.

End OutputFacts.

(** C7: with a payload path configured, when the output loop completes,
    each definition in turn, in the order of discovery, has its secrets
    marshalled and written to that one path, so that the file holds the
    JSON of the definition just handled; each write replaces what the
    definition before had left, and at the end the file holds the JSON of
    the last definition only. *)
Theorem payload_holds_last_definition {rt : GoRuntime} (config : Config)
        (defs : list SecretDefinition) (w w' : World) (out : list LogLine) :
  SecretPayloadPath config ≠ "" →
  forM_ (outputDefinition config) defs w = (Done (), w', out) →
  (∀ before def after, defs = (before ++ def :: after)%list →
     ∃ w1 out1,
       forM_ (outputDefinition config) (before ++ [def])%list w = (Done (), w1, out1)
       ∧ files w1 !! SecretPayloadPath config = Some (Marshal (secrets def)))
  ∧ (∀ def, last defs = Some def →
       files w' !! SecretPayloadPath config = Some (Marshal (secrets def))).
Proof.
  intros Hpath Hrun. split.
  - intros before def after ->.
    rewrite (cons_middle def), app_assoc in Hrun.
    apply forM__prefix_Done in Hrun as (w1 & out1 & Hrun).
    exists w1, out1. split; [done |].
    apply forM__snoc_Done in Hrun as (w0 & o0 & o2 & _ & Hdef).
    by eapply outputDefinition_payload.
  - intros def (before & ->)%last_Some.
    apply forM__snoc_Done in Hrun as (w0 & o0 & o2 & _ & Hdef).
    by eapply outputDefinition_payload.
Qed.

(** Two definitions written to one payload path. *)
Lemma payload_holds_last_definition_witness :
  ∃ w',
    (forM_ (outputDefinition (rt := SampleRuntime.runtime) (mkConfig 2 "/payload" false))
           [firstDefinition; secondDefinition] (worldOf [])).1.1 = Done ()
    ∧ (forM_ (outputDefinition (rt := SampleRuntime.runtime) (mkConfig 2 "/payload" false))
             [firstDefinition; secondDefinition] (worldOf [])).1.2 = w'
    ∧ files w' !! "/payload"
      = Some (Marshal (GoRuntime := SampleRuntime.runtime) (secrets secondDefinition)).
Proof.
  destruct (forM_ (outputDefinition (rt := SampleRuntime.runtime) (mkConfig 2 "/payload" false))
                  [firstDefinition; secondDefinition] (worldOf []))
    as [[o w'] out] eqn:Hrun.
  assert (o = Done ()) as ->.
  { apply (f_equal (λ r, r.1.1)) in Hrun. vm_compute in Hrun. by symmetry. }
  exists w'. split_and!; [done | done |].
  refine (proj2 (payload_holds_last_definition (rt := SampleRuntime.runtime)
                   (mkConfig 2 "/payload" false) _ _ _ _ _ Hrun)
                secondDefinition eq_refl).
  discriminate.
Defined.

Example payload_file_content :
  files (forM_ (outputDefinition (rt := SampleRuntime.runtime) (mkConfig 2 "/payload" false))
               [firstDefinition; secondDefinition] (worldOf [])).1.2 !! "/payload"
  = Some (String "{" (SampleRuntime.quote "pass" ++ ":" ++ SampleRuntime.quote "p1" ++ ","
          ++ SampleRuntime.quote "user" ++ ":" ++ SampleRuntime.quote "u1" ++ "}")).
Proof. vm_compute. reflexivity. Qed.

(** ** What the first loop leaves alone

    The first loop reads the environment and calls the store; it writes
    neither the environment nor any file. *)

Section Preservation.
Context {rt : GoRuntime}.

Lemma sameSurroundings_refl (w : World) : sameSurroundings w w.
Proof. done. Qed.

Lemma sameSurroundings_trans (w1 w2 w3 : World) :
  sameSurroundings w1 w2 → sameSurroundings w2 w3 → sameSurroundings w1 w3.
Proof. unfold sameSurroundings. intros (-> & -> & ->) (-> & -> & ->). done. Qed.

Lemma preserves_ret {A} (a : A) : preserves (mret a).
Proof. intros w o w' out [= <- <- <-]. apply sameSurroundings_refl. Qed.

Lemma preserves_fatal {A} (e : error) : preserves (fatal (A := A) e).
Proof. intros w o w' out [= <- <- <-]. apply sameSurroundings_refl. Qed.

Lemma preserves_panic {A} (p : PanicReason) : preserves (panic (A := A) p).
Proof. intros w o w' out [= <- <- <-]. apply sameSurroundings_refl. Qed.

Lemma preserves_logLine (l : LogLine) : preserves (logLine l).
Proof. intros w o w' out [= <- <- <-]. apply sameSurroundings_refl. Qed.

Lemma preserves_bind {A B} (m : M A) (f : A → M B) :
  preserves m → (∀ a, preserves (f a)) → preserves (m ≫= f).
Proof.
  intros Hm Hf w o w' out. unfold mbind, M_bind.
  destruct (m w) as [[[a| | |] w1] o1] eqn:E1.
  - destruct (f a w1) as [[o2 w2] out2] eqn:E2. intros [= <- <- <-].
    eapply sameSurroundings_trans; [by eapply Hm | by eapply Hf].
  - intros [= <- <- <-]. by eapply Hm.
  - intros [= <- <- <-]. by eapply Hm.
  - intros [= <- <- <-]. by eapply Hm.
Qed.

Lemma preserves_forM_ {A} (f : A → M unit) (l : list A) :
  (∀ x, preserves (f x)) → preserves (forM_ f l).
Proof.
  intros Hf. induction l as [|x l IH]; simpl.
  - apply preserves_ret.
  - apply preserves_bind; [apply Hf | by intros _].
Qed.

Lemma preserves_foldM {A S} (f : S → A → M S) (s : S) (l : list A) :
  (∀ s x, preserves (f s x)) → preserves (foldM f s l).
Proof.
  intros Hf. revert s. induction l as [|x l IH]; intros s; simpl.
  - apply preserves_ret.
  - apply preserves_bind; [apply Hf | intros s'; apply IH].
Qed.

Lemma preserves_getenv (key : string) : preserves (getenv key).
Proof. intros w o w' out [= <- <- <-]. apply sameSurroundings_refl. Qed.

Lemma preserves_lookupDestination (secretID : string) :
  preserves (lookupDestination secretID).
Proof. intros w o w' out [= <- <- <-]. apply sameSurroundings_refl. Qed.

Lemma preserves_logicalList (client : Client) (path : string) :
  preserves (logicalList client path).
Proof. by intros w o w' out [= <- <- <-]. Qed.

Lemma preserves_AsyncRequestKeyPath (path : string) :
  preserves (AsyncRequestKeyPath path).
Proof. by intros w o w' out [= <- <- <-]. Qed.

Lemma preserves_ReadSecretResult (client : Client) (workers : nat) :
  preserves (ReadSecretResult client workers).
Proof.
  intros w o w' out. unfold ReadSecretResult.
  destruct workers as [|n]; [by intros [= <- <- <-] |].
  destruct (inflight w) as [|p0 rest]; [by intros [= <- <- <-] |].
  destruct (Logical_Read client _) as [secret err]. by intros [= <- <- <-].
Qed.

Lemma preserves_Walk (client : Client) (sd : SecretDefinition) :
  preserves (Walk client sd).
Proof.
  intros w o w' out.
  destruct (Walk_total client sd w) as (sd' & oerr & out' & -> & _).
  by intros [= <- <- <-].
Qed.

Lemma preserves_mergeData (keyName : string) (kvs : list (string * value))
      (acc : gmap string string) :
  preserves (mergeData keyName kvs acc).
Proof.
  revert acc. induction kvs as [|[k v] rest IH]; intros acc; simpl.
  - apply preserves_ret.
  - apply preserves_bind; [| intros s; apply IH].
    destruct v; simpl; first [apply preserves_ret | apply preserves_panic].
Qed.

Lemma preserves_addSecrets (client : Client) (sd : SecretDefinition)
      (r : SecretResult) :
  preserves (addSecrets client sd r).
Proof.
  unfold addSecrets. destruct (Err r); [apply preserves_fatal |].
  destruct (Secret r); [| apply preserves_fatal].
  apply preserves_bind; [apply preserves_mergeData | intros m; apply preserves_ret].
Qed.

Lemma preserves_takeResult (client : Client) (config : Config)
      (def : SecretDefinition) :
  preserves (takeResult client config def).
Proof.
  unfold takeResult, mergeResult.
  apply preserves_bind; [apply preserves_ReadSecretResult |]. intros r.
  destruct (Err r); [apply preserves_fatal |].
  apply preserves_bind; [apply preserves_addSecrets |].
  intros [d [e|]]; [apply preserves_fatal | apply preserves_ret].
Qed.

Lemma preserves_fetchDefinition (client : Client) (config : Config)
      (def : SecretDefinition) :
  preserves (fetchDefinition client config def).
Proof.
  unfold fetchDefinition. apply preserves_bind.
  - destruct (plural def); [| apply preserves_ret].
    apply preserves_bind; [apply preserves_Walk |].
    intros [d [e|]]; [apply preserves_fatal | apply preserves_ret].
  - intros d. apply preserves_bind.
    + apply preserves_forM_, preserves_AsyncRequestKeyPath.
    + intros _. apply preserves_foldM. intros s _. apply preserves_takeResult.
Qed.

Lemma preserves_processEntry (client : Client) (config : Config)
      (defs : list SecretDefinition) (env : string) :
  preserves (processEntry client config defs env).
Proof.
  unfold processEntry. apply preserves_bind; [apply preserves_getenv |].
  intros apex. destruct (newDefinition _ apex) as [def|]; [| apply preserves_ret].
  apply preserves_bind; [apply preserves_lookupDestination |]. intros dest.
  destruct (noOutputMethod config _).
  - apply preserves_bind; [apply preserves_logLine | intros _; apply preserves_ret].
  - apply preserves_bind; [apply preserves_fetchDefinition |].
    intros d. apply preserves_ret.
Qed.

Lemma preserves_discover (client : Client) (config : Config)
      (defs : list SecretDefinition) (envs : list string) :
  preserves (foldM (processEntry client config) defs envs).
Proof. apply preserves_foldM. intros s x. apply preserves_processEntry. Qed.

End Preservation.

(** ** The validation gate *)

Lemma newDefinition_fields (envKey apex : string) (def : SecretDefinition) :
  newDefinition envKey apex = Some def →
  EnvKey def = envKey ∧ SecretApex def = apex ∧ OutputDestination def = ""
  ∧ secrets def = ∅.
Proof.
  unfold newDefinition. case_decide; [done |].
  destruct (GoStrings.HasPrefix envKey secretStoragePathPrefix); [by intros [= <-] |].
  destruct (GoStrings.HasPrefix envKey secretsStoragePathPrefix); [by intros [= <-] | done].
Qed.

Lemma processEntry_skip {rt : GoRuntime} (client : Client) (config : Config)
      (defs : list SecretDefinition) (env : string) (def : SecretDefinition) (w : World) :
  SecretPayloadPath config = "" → SecretEnv config = false →
  newDefinition (hd "" (GoStrings.Split env "="))
                (GoOs.Getenv (environ w) (hd "" (GoStrings.Split env "="))) = Some def →
  resolveDestination (environ w) (SecretID def) = "" →
  processEntry client config defs env w
  = (Done defs, w, [LogNoOutputMethod (hd "" (GoStrings.Split env "="))]).
Proof.
  intros Hpath Henv Hdef Hdest. unfold processEntry.
  rewrite (bind_Done _ _ _ _ _ _ eq_refl), Hdef.
  rewrite (bind_Done _ _ _ _ _ _ eq_refl), Hdest.
  destruct (newDefinition_fields _ _ _ Hdef) as (Hkey & _).
  unfold noOutputMethod. rewrite Hpath, Henv. simpl. by rewrite Hkey.
Qed.

Lemma foldM_skip {A S} (f : S → A → M S) (x : A) (line : LogLine)
      (before after : list A) (s : S) (w : World) :
  (∀ s1 w1 o1, foldM f s before w = (Done s1, w1, o1) →
               f s1 x w1 = (Done s1, w1, [line])) →
  ∃ o w' out1 out2 skipped,
    foldM f s (before ++ after)%list w = (o, w', (out1 ++ out2)%list)
    ∧ foldM f s (before ++ x :: after)%list w = (o, w', (out1 ++ skipped ++ out2)%list)
    ∧ (skipped = [] ∨ skipped = [line])
    ∧ (∀ s1 w1 o1, foldM f s before w = (Done s1, w1, o1) → skipped = [line]).
Proof.
  intros Hskip. rewrite !foldM_app.
  destruct (foldM f s before w) as [[[s1| | |] w1] o1] eqn:E.
  - rewrite !(bind_Done _ _ _ _ _ _ E). simpl.
    rewrite (bind_Done _ _ _ _ _ _ (Hskip _ _ _ eq_refl)).
    destruct (foldM f s1 after w1) as [[o w'] out2].
    exists o, w', o1, out2, [line]. split_and!; try done. by right.
  - rewrite !(bind_Fatal _ _ _ _ _ _ E).
    exists (Fatal e), w1, o1, [], []. rewrite !app_nil_r.
    split_and!; [done | done | by left | done].
  - rewrite !(bind_Panic _ _ _ _ _ _ E).
    exists (Panic p), w1, o1, [], []. rewrite !app_nil_r.
    split_and!; [done | done | by left | done].
  - rewrite !(bind_Blocked _ _ _ _ _ E).
    exists Blocked, w1, o1, [], []. rewrite !app_nil_r.
    split_and!; [done | done | by left | done].
Qed.

(** C8: with no payload path and no export to the process environment, an
    entry whose definition has no destination is skipped: its turn of the
    loop prints one log line, leaves the definitions found so far and the
    world (the calls to the store and the requests to the reader) as they
    were, and goes on; the run over an environment with that entry has
    the outcome, the definitions and the final world of the run without
    it, and the same log but for that line. *)
Theorem no_output_method_skips {rt : GoRuntime} (client : Client) (config : Config)
        (env : string) (def : SecretDefinition) (w : World) :
  SecretPayloadPath config = "" → SecretEnv config = false →
  newDefinition (hd "" (GoStrings.Split env "="))
                (GoOs.Getenv (environ w) (hd "" (GoStrings.Split env "="))) = Some def →
  resolveDestination (environ w) (SecretID def) = "" →
  (∀ defs w0, environ w0 = environ w →
     processEntry client config defs env w0
     = (Done defs, w0, [LogNoOutputMethod (hd "" (GoStrings.Split env "="))]))
  ∧ (∀ before after, ∃ o w' out1 out2 skipped,
       discover client config (before ++ after)%list w = (o, w', (out1 ++ out2)%list)
       ∧ discover client config (before ++ env :: after)%list w
         = (o, w', (out1 ++ skipped ++ out2)%list)
       ∧ (skipped = [] ∨ skipped = [LogNoOutputMethod (hd "" (GoStrings.Split env "="))])
       ∧ (∀ defs1 w1 o1, discover client config before w = (Done defs1, w1, o1) →
            skipped = [LogNoOutputMethod (hd "" (GoStrings.Split env "="))])).
Proof.
  intros Hpath Henv Hdef Hdest.
  assert (∀ defs w0, environ w0 = environ w →
     processEntry client config defs env w0
     = (Done defs, w0, [LogNoOutputMethod (hd "" (GoStrings.Split env "="))])) as Hskip.
  { intros defs w0 Hw0. apply (processEntry_skip client config defs env def);
      [done | done | by rewrite Hw0 | by rewrite Hw0]. }
  split; [exact Hskip |].
  intros before after. unfold discover. apply foldM_skip.
  intros s1 w1 o1 Hbefore. apply Hskip.
  by apply preserves_discover in Hbefore as (-> & _).
Qed.

(** A singular secret with no destination, and no global output mode. *)
Lemma no_output_method_skips_witness :
  processEntry (rt := SampleRuntime.runtime) emptyStore (mkConfig 2 "" false) []
               "VAULT_SECRET_API=secret/app/api"
               (worldOf ["VAULT_SECRET_API=secret/app/api"; "HOME=/root"])
  = (Done [], worldOf ["VAULT_SECRET_API=secret/app/api"; "HOME=/root"],
     [LogNoOutputMethod "VAULT_SECRET_API"]).
Proof.
  refine (proj1 (no_output_method_skips (rt := SampleRuntime.runtime) emptyStore
                   (mkConfig 2 "" false) "VAULT_SECRET_API=secret/app/api"
                   (mkSecretDefinition "VAULT_SECRET_API" "API" "secret/app/api" "" ∅
                                       false ["secret/app/api"])
                   (worldOf ["VAULT_SECRET_API=secret/app/api"; "HOME=/root"])
                   eq_refl eq_refl _ _) [] _ eq_refl).
  - vm_compute. reflexivity.
  - vm_compute. reflexivity.
Defined.

(** Every definition that reaches the output loop has an output method. *)
Lemma discover_output_methods {rt : GoRuntime} (client : Client) (config : Config)
      (envs : list string) (defs0 defs : list SecretDefinition)
      (w w' : World) (out : list LogLine) :
  foldM (processEntry client config) defs0 envs w = (Done defs, w', out) →
  Forall (λ d, noOutputMethod config d = false) defs0 →
  Forall (λ d, noOutputMethod config d = false) defs.
Proof.
  revert defs0 w out. induction envs as [|env envs IH]; intros defs0 w out; simpl.
  - by intros [= <- <- <-].
  - intros (defs1 & w1 & o1 & o2 & Hentry & Hrest & _)%bind_Done_inv Hall.
    eapply IH; [exact Hrest |].
    clear Hrest IH. unfold processEntry in Hentry.
    apply bind_Done_inv in Hentry as (apex & w2 & o3 & o4 & _ & Hentry & _).
    destruct (newDefinition _ apex) as [def|]; [| by injection Hentry as <- <-].
    apply bind_Done_inv in Hentry as (dest & w3 & o5 & o6 & _ & Hentry & _).
    destruct (noOutputMethod config (withOutputDestination dest def)) eqn:Hgate.
    + apply bind_Done_inv in Hentry as ([] & w4 & o7 & o8 & _ & Hentry & _).
      by injection Hentry as <- <-.
    + apply bind_Done_inv in Hentry as (d & w4 & o7 & o8 & Hfetch & Hentry & _).
      injection Hentry as <- <-. apply Forall_app. split; [done |].
      apply Forall_singleton.
      unfold fetchDefinition in Hfetch.
      apply bind_Done_inv in Hfetch as (d1 & w5 & o9 & o10 & Hwalk & Hfetch & _).
      apply bind_Done_inv in Hfetch as ([] & w6 & o11 & o12 & _ & Hfold & _).
      apply foldM_takeResult_paths in Hfold as (_ & _ & _ & _ & _ & Hd).
      assert (OutputDestination d1 = OutputDestination (withOutputDestination dest def)) as Hd1.
      { destruct (plural (withOutputDestination dest def)).
        - apply bind_Done_inv in Hwalk as ([d2 oerr] & w7 & o13 & o14 & Hwalk & Hret & _).
          destruct oerr; [done |]. injection Hret as <- <-.
          by apply Walk_success_inv in Hwalk as (l & names & _ & _ & -> & _).
        - by injection Hwalk as <- <-. }
      unfold noOutputMethod in *. by rewrite Hd, Hd1.
Qed.

(** ** The fetch engine: invariants of an execution *)

Section EngineFacts.
Import ParallelReader.

Lemma union_insert (f : Worker → gmultiset string) (ws : list Worker)
      (i : nat) (x y : Worker) :
  ws !! i = Some x →
  ⋃+ (f <$> <[i := y]> ws) ⊎ f x = ⋃+ (f <$> ws) ⊎ f y.
Proof.
  revert i. induction ws as [|z ws IH]; intros [|i] Hi; simpl in *; try done.
  - injection Hi as ->. multiset_solver.
  - rewrite <- !(assoc_L (⊎)). f_equal. exact (IH i Hi).
Qed.

Lemma sum_insert (f : Worker → nat) (ws : list Worker) (i : nat) (x y : Worker) :
  ws !! i = Some x →
  sum_list (f <$> <[i := y]> ws) + f x = sum_list (f <$> ws) + f y.
Proof.
  revert i. induction ws as [|z ws IH]; intros [|i] Hi; simpl in *; try done.
  - injection Hi as ->. lia.
  - rewrite <- !Nat.add_assoc. f_equal. exact (IH i Hi).
Qed.

Lemma KeyPath_resultOf (client : Client) (p : string) :
  KeyPath (resultOf client p) = p.
Proof. unfold resultOf. by destruct (Logical_Read client p). Qed.

Lemma genuine_resultOf (client : Client) (p : string) :
  genuine client (resultOf client p).
Proof. unfold genuine. by rewrite KeyPath_resultOf. Qed.

Lemma pathsOf_snoc (rs : list SecretResult) (r : SecretResult) :
  pathsOf (rs ++ [r]) = pathsOf rs ⊎ {[+ KeyPath r +]}.
Proof.
  unfold pathsOf. rewrite fmap_app, list_to_set_disj_app. simpl. multiset_solver.
Qed.

Lemma pathsOf_cons (rs : list SecretResult) (r : SecretResult) :
  pathsOf (r :: rs) = {[+ KeyPath r +]} ⊎ pathsOf rs.
Proof. done. Qed.

Lemma list_to_set_disj_snoc (l : list string) (p : string) :
  list_to_set_disj (l ++ [p]) =@{gmultiset string} list_to_set_disj l ⊎ {[+ p +]}.
Proof. rewrite list_to_set_disj_app. simpl. multiset_solver. Qed.

(** One action moves one path one stage on. *)
Lemma exec_step (client : Client) (a : Action) (e e' : Engine) :
  exec client a e = Some e' →
  owed e' = owed e
  ∧ remaining e = S (remaining e')
  ∧ List.length (workers e') = List.length (workers e)
  ∧ (consistent client e → consistent client e').
Proof.
  unfold owed, remaining, consistent, delivered.
  destruct a as [|i|i|i|]; simpl.
  - destruct (toSubmit e) as [|p rest] eqn:Es; [done |]. intros [= <-]; simpl.
    rewrite list_to_set_disj_snoc, length_app. simpl.
    split_and!; [multiset_solver | lia | done | done].
  - destruct (workers e !! i) as [[| |]|] eqn:Ew; try done.
    destruct (requests e) as [|p rest] eqn:Er; [done |]. intros [= <-]; simpl.
    pose proof (union_insert held _ _ _ (Reading p) Ew) as Hu.
    pose proof (union_insert readBy _ _ _ (Reading p) Ew) as Hr.
    pose proof (sum_insert phase _ _ _ (Reading p) Ew) as Hs.
    simpl in Hu, Hr, Hs. rewrite length_insert.
    split_and!; [multiset_solver | lia | done |].
    intros (Hreads & Hw & Hres & Htaken). split_and!; try done.
    + rewrite Hreads. multiset_solver.
    + by apply Forall_insert.
  - destruct (workers e !! i) as [[|p|]|] eqn:Ew; try done. intros [= <-]; simpl.
    pose proof (union_insert held _ _ _ (Holding (resultOf client p)) Ew) as Hu.
    pose proof (union_insert readBy _ _ _ (Holding (resultOf client p)) Ew) as Hr.
    pose proof (sum_insert phase _ _ _ (Holding (resultOf client p)) Ew) as Hs.
    simpl in Hu, Hr, Hs. rewrite KeyPath_resultOf in Hu, Hr. rewrite length_insert.
    split_and!; [multiset_solver | lia | done |].
    intros (Hreads & Hw & Hres & Htaken). split_and!; try done.
    + rewrite list_to_set_disj_snoc, Hreads. multiset_solver.
    + apply Forall_insert; [done |]. apply genuine_resultOf.
  - destruct (workers e !! i) as [[| |r]|] eqn:Ew; try done. intros [= <-]; simpl.
    pose proof (union_insert held _ _ _ Idle Ew) as Hu.
    pose proof (union_insert readBy _ _ _ Idle Ew) as Hr.
    pose proof (sum_insert phase _ _ _ Idle Ew) as Hs.
    simpl in Hu, Hr, Hs. rewrite length_insert, pathsOf_snoc, length_app. simpl.
    split_and!; [multiset_solver | lia | done |].
    intros (Hreads & Hw & Hres & Htaken). split_and!; try done.
    + rewrite Hreads. multiset_solver.
    + by apply Forall_insert.
    + apply Forall_app. split; [done |]. apply Forall_singleton.
      by apply (Forall_lookup_1 _ _ _ _ Hw Ew).
  - destruct (results e) as [|r rest] eqn:Er; [done |]. intros [= <-]; simpl.
    rewrite pathsOf_snoc, pathsOf_cons.
    split_and!; [multiset_solver | lia | done |].
    intros (Hreads & Hw & Hres & Htaken). split_and!; try done.
    + rewrite Hreads. multiset_solver.
    + by apply Forall_cons in Hres as [_ ?].
    + apply Forall_app. split; [done |]. apply Forall_singleton.
      by apply Forall_cons in Hres as [? _].
Qed.

Lemma run_steps (client : Client) (acts : list Action) (e e' : Engine) :
  run client acts e = Some e' →
  owed e' = owed e
  ∧ remaining e = remaining e' + List.length acts
  ∧ List.length (workers e') = List.length (workers e)
  ∧ (consistent client e → consistent client e').
Proof.
  revert e. induction acts as [|a acts IH]; intros e; simpl.
  - intros [= <-]. split_and!; [done | lia | done | done].
  - destruct (exec client a e) as [e1|] eqn:Ea; [| done].
    intros (Ho & Hr & Hl & Hc)%IH.
    apply exec_step in Ea as (Ho1 & Hr1 & Hl1 & Hc1).
    split_and!; [congruence | lia | congruence | auto].
Qed.

Lemma run_app (client : Client) (acts1 acts2 : list Action) (e : Engine) :
  run client (acts1 ++ acts2) e = run client acts1 e ≫= run client acts2.
Proof.
  revert e. induction acts1 as [|a acts1 IH]; intros e; simpl; [done |].
  destruct (exec client a e); [apply IH | done].
Qed.

Lemma size_list_to_set_disj (l : list string) :
  size (list_to_set_disj l : gmultiset string) = List.length l.
Proof.
  induction l as [|x l IH]; simpl; [done |].
  by rewrite gmultiset_size_disj_union, gmultiset_size_singleton, IH.
Qed.

Lemma idle_workers (ws : list Worker) :
  forallb isIdle ws = true →
  ⋃+ (held <$> ws) = ∅ ∧ ⋃+ (readBy <$> ws) = ∅ ∧ sum_list (phase <$> ws) = 0.
Proof.
  induction ws as [|x ws IH]; simpl; [done |].
  intros [Hx Hws]%andb_true_iff. destruct x; try done.
  destruct (IH Hws) as (Hh & Hr & Hs). simpl.
  split_and!; [| | done].
  - change (∅ ⊎ ⋃+ (held <$> ws) = ∅). rewrite Hh. multiset_solver.
  - change (∅ ⊎ ⋃+ (readBy <$> ws) = ∅). rewrite Hr. multiset_solver.
Qed.

Lemma quiescent_inv (e : Engine) :
  quiescent e = true →
  toSubmit e = [] ∧ requests e = [] ∧ results e = []
  ∧ forallb isIdle (workers e) = true.
Proof.
  unfold quiescent. rewrite !andb_true_iff, !bool_decide_eq_true. tauto.
Qed.

Lemma quiescent_owed (e : Engine) :
  quiescent e = true →
  owed e = pathsOf (taken e) ∧ delivered e = pathsOf (taken e) ∧ remaining e = 0.
Proof.
  intros (Hs & Hq & Hr & Hw)%quiescent_inv.
  destruct (idle_workers _ Hw) as (Hh & Hb & Hp).
  unfold owed, delivered, remaining. rewrite Hs, Hq, Hr, Hh, Hb, Hp. simpl.
  split_and!; [| | done].
  - change (pathsOf []) with (∅ : gmultiset string). multiset_solver.
  - change (pathsOf []) with (∅ : gmultiset string). multiset_solver.
Qed.

(** While the engine is not quiescent, some action is enabled: this is
    where at least one worker is needed. *)
Lemma engine_progress (client : Client) (e : Engine) :
  workers e ≠ [] → quiescent e = false →
  ∃ a e', exec client a e = Some e'.
Proof.
  intros Hn Hq.
  destruct (toSubmit e) as [|p rest] eqn:Es;
    [| exists Submit; simpl; rewrite Es; by eexists].
  destruct (results e) as [|r rs] eqn:Er;
    [| exists Next; simpl; rewrite Er; by eexists].
  destruct (forallb isIdle (workers e)) eqn:Hw.
  - destruct (requests e) as [|p rest] eqn:Eq.
    { unfold quiescent in Hq. rewrite Es, Er, Eq, Hw in Hq. done. }
    destruct (workers e) as [|x ws] eqn:Ew; [done |].
    simpl in Hw. apply andb_true_iff in Hw as [Hx _]. destruct x; try done.
    exists (Receive 0). simpl. rewrite Ew, Eq. simpl. by eexists.
  - assert (∃ i x, workers e !! i = Some x ∧ isIdle x = false) as (i & x & Hi & Hx).
    { clear -Hw. induction (workers e) as [|x ws IH]; simpl in Hw; [done |].
      destruct (isIdle x) eqn:Hx.
      - destruct (IH Hw) as (i & y & Hi & Hy). by exists (S i), y.
      - by exists 0, x. }
    destruct x as [|p|r]; [done | |].
    + exists (ReadStore i). simpl. rewrite Hi. by eexists.
    + exists (Send i). simpl. rewrite Hi. by eexists.
Qed.

Lemma stuck_quiescent (client : Client) (e : Engine) :
  workers e ≠ [] → (∀ a, exec client a e = None) → quiescent e = true.
Proof.
  intros Hn Hstuck. destruct (quiescent e) eqn:Hq; [done |].
  destruct (engine_progress client e Hn Hq) as (a & e' & Ha). by rewrite Hstuck in Ha.
Qed.

(** From every state the engine can run on to a quiescent one. *)
Lemma engine_completes (client : Client) (k : nat) (e : Engine) :
  remaining e = k → workers e ≠ [] →
  ∃ more e', run client more e = Some e' ∧ quiescent e' = true.
Proof.
  revert e. induction k as [|k IH]; intros e Hk Hn.
  - destruct (quiescent e) eqn:Hq; [by exists [], e |].
    destruct (engine_progress client e Hn Hq) as (a & e1 & Ha).
    apply exec_step in Ha as (_ & Hr & _). lia.
  - destruct (quiescent e) eqn:Hq; [by exists [], e |].
    destruct (engine_progress client e Hn Hq) as (a & e1 & Ha).
    pose proof (exec_step _ _ _ _ Ha) as (_ & Hr & Hl & _).
    destruct (IH e1) as (more & e' & Hrun & Hq').
    { lia. }
    { intros Hnil. apply Hn. apply nil_length_inv. by rewrite <- Hl, Hnil. }
    exists (a :: more), e'. simpl. by rewrite Ha.
Qed.

Lemma init_facts (client : Client) (n : nat) (ps : list string) :
  owed (init n ps) = list_to_set_disj ps
  ∧ remaining (init n ps) = 5 * List.length ps
  ∧ List.length (workers (init n ps)) = n
  ∧ consistent client (init n ps).
Proof.
  assert (forallb isIdle (replicate n Idle) = true) as Hidle.
  { induction n as [|n IH]; simpl; [done | exact IH]. }
  destruct (idle_workers _ Hidle) as (Hh & Hb & Hp).
  unfold owed, remaining, consistent, delivered. simpl. rewrite Hh, Hb, Hp.
  change (pathsOf []) with (∅ : gmultiset string).
  split_and!; [multiset_solver | lia | apply length_replicate | multiset_solver | | done | done].
  apply Forall_replicate. done.
Qed.

End EngineFacts.

(** C9: for every store, every number N of workers with N at least 1, and
    every sequence of M submitted paths, whatever the interleaving of the
    caller and the workers: an execution has at most 5 M actions and can
    always be continued to a quiescent state; and once no action is
    enabled, exactly M results have been taken, the multiset of their
    paths is the multiset of the submitted paths, the store has been read
    once for each submitted path, and each result is the store's answer
    for its own path. *)
Theorem fetch_engine_delivers (client : Client) (n : nat) (ps : list string)
        (acts : list ParallelReader.Action) (e : ParallelReader.Engine) :
  (1 ≤ n)%nat →
  ParallelReader.run client acts (ParallelReader.init n ps) = Some e →
  (List.length acts ≤ 5 * List.length ps)%nat
  ∧ (∃ more e', ParallelReader.run client more e = Some e'
                ∧ ParallelReader.quiescent e' = true)
  ∧ ((∀ a, ParallelReader.exec client a e = None) →
     List.length acts = 5 * List.length ps
     ∧ List.length (ParallelReader.taken e) = List.length ps
     ∧ ParallelReader.pathsOf (ParallelReader.taken e) = list_to_set_disj ps
     ∧ list_to_set_disj (ParallelReader.reads e) =@{gmultiset string} list_to_set_disj ps
     ∧ Forall (ParallelReader.genuine client) (ParallelReader.taken e)).
Proof.
  intros Hn Hrun.
  destruct (init_facts client n ps) as (Ho0 & Hr0 & Hl0 & Hc0).
  destruct (run_steps _ _ _ _ Hrun) as (Ho & Hr & Hl & Hc).
  assert (ParallelReader.workers e ≠ []) as Hne.
  { intros Hnil. rewrite Hnil, Hl0 in Hl. simpl in Hl. lia. }
  split_and!.
  - lia.
  - by apply (engine_completes client (ParallelReader.remaining e)).
  - intros Hq%stuck_quiescent; [| done].
    destruct (quiescent_owed _ Hq) as (Hoq & Hdq & Hrq).
    destruct (Hc Hc0) as (Hreads & _ & _ & Htaken).
    assert (ParallelReader.pathsOf (ParallelReader.taken e) = list_to_set_disj ps) as Hp.
    { by rewrite <- Hoq, Ho, Ho0. }
    split_and!; [lia | | done | by rewrite Hreads, Hdq | done].
    apply (f_equal size) in Hp. unfold ParallelReader.pathsOf in Hp.
    by rewrite !size_list_to_set_disj, length_fmap in Hp.
Qed.

(** Two workers and two paths, the second result first. *)
Lemma fetch_engine_delivers_witness :
  ParallelReader.run sampleStore sampleSchedule
    (ParallelReader.init 2 ["secret/app/db/user"; "secret/app/db/pass"])
  = Some sampleFinalEngine
  ∧ List.length (ParallelReader.taken sampleFinalEngine) = 2
  ∧ ParallelReader.pathsOf (ParallelReader.taken sampleFinalEngine)
    = list_to_set_disj ["secret/app/db/user"; "secret/app/db/pass"]
  ∧ list_to_set_disj (ParallelReader.reads sampleFinalEngine)
    =@{gmultiset string} list_to_set_disj ["secret/app/db/user"; "secret/app/db/pass"].
Proof.
  assert (ParallelReader.run sampleStore sampleSchedule
            (ParallelReader.init 2 ["secret/app/db/user"; "secret/app/db/pass"])
          = Some sampleFinalEngine) as Hrun.
  { vm_compute. reflexivity. }
  split; [exact Hrun |].
  destruct (fetch_engine_delivers sampleStore 2 _ _ _ ltac:(lia) Hrun)
    as (_ & _ & Hfinal).
  destruct Hfinal as (_ & Hlen & Hpaths & Hreads & _).
  { intros [|i|i|i|]; try reflexivity; destruct i as [|[|i]]; reflexivity. }
  split_and!; assumption.
Defined.

(** ** The spec's end-to-end scenarios *)

Example singular_secret_to_file :
  let r := SecretFetcher (rt := SampleRuntime.runtime) sampleStore (mkConfig 2 "" false)
             (worldOf [ "VAULT_SECRET_API=secret/app/api";
                        "DAYTONA_SECRET_DESTINATION_API=/out/api.txt" ]) in
  map_to_list (files r.1.2) = [("/out/api.txt", "abc123")]
  ∧ submitted r.1.2 = ["secret/app/api"].
Proof. vm_compute. done. Qed.

Example plural_secret_to_file :
  let r := SecretFetcher (rt := SampleRuntime.runtime) sampleStore (mkConfig 2 "" false)
             (worldOf [ "VAULT_SECRETS_DB=secret/app/db";
                        "DAYTONA_SECRET_DESTINATION_DB=/out/db.json" ]) in
  files r.1.2 !! "/out/db.json"
  = Some (Marshal (GoRuntime := SampleRuntime.runtime) {[ "user" := "u1"; "pass" := "p1" ]})
  ∧ submitted r.1.2 = ["secret/app/db/user"; "secret/app/db/pass"].
Proof. vm_compute. done. Qed.

Example empty_listing_is_fatal :
  let r := SecretFetcher (rt := SampleRuntime.runtime) emptyStore (mkConfig 2 "/payload" false)
             (worldOf ["VAULT_SECRETS_DB=secret/app/db"]) in
  r.1.1 = Fatal (ErrNoSecretsFound "secret/app/db")
  ∧ submitted r.1.2 = [].
Proof. vm_compute. done. Qed.

(** ** The output sinks: [setEnvSecrets], [writeSecretsToDestination] and
    the second loop of [SecretFetcher] *)

Section SinkFacts.
Context {rt : GoRuntime}.

Lemma outputOnly_refl (w : World) : outputOnly w w.
Proof. done. Qed.

Lemma outputOnly_trans (w1 w2 w3 : World) :
  outputOnly w1 w2 → outputOnly w2 w3 → outputOnly w1 w3.
Proof.
  unfold outputOnly. intros (-> & -> & -> & -> & ->) (-> & -> & -> & -> & ->). done.
Qed.

Lemma setenv_run (k v : string) (w : World) :
  ∃ oerr w', setenv k v w = (Done oerr, w', [])
    ∧ files w' = files w ∧ outputOnly w w'
    ∧ (GoOs.validSetenv k v = true →
       oerr = None ∧ GoOs.Setenv (environ w) k v = Some (environ w'))
    ∧ (GoOs.validSetenv k v = false → oerr = Some (ErrSetenv k) ∧ w' = w).
Proof.
  unfold setenv, GoOs.Setenv. destruct (GoOs.validSetenv k v).
  - eexists _, _. split_and!; try done.
  - eexists _, _. split_and!; try done.
Qed.

Lemma setEnvLoop_total (kvs : list (string * string)) (w : World) :
  ∃ oerr w' out, setEnvLoop kvs w = (Done oerr, w', out)
    ∧ files w' = files w ∧ outputOnly w w'.
Proof.
  revert w. induction kvs as [|[k v] rest IH]; intros w; simpl.
  - by eexists _, _, _.
  - destruct (setenv_run k v w) as (oerr & w1 & Hrun & Hf & Ho & _).
    rewrite (bind_Done _ _ _ _ _ _ Hrun).
    destruct oerr as [e|]; [by eexists _, _, _ |].
    rewrite (bind_Done _ _ _ () w1 [LogSetEnv k] eq_refl).
    destruct (IH w1) as (oerr & w2 & out & -> & Hf2 & Ho2).
    eexists _, _, _. split_and!; [done | congruence |].
    by eapply outputOnly_trans.
Qed.

Lemma writeFile_run (path data : string) (w : World) :
  ∃ oerr w', writeFile path data w = (Done oerr, w', [])
    ∧ environ w' = environ w ∧ outputOnly w w'
    ∧ (path ∈ readonly w → oerr = Some (IOError path) ∧ w' = w)
    ∧ (path ∉ readonly w → oerr = None ∧ w' = setFile path data w).
Proof.
  unfold writeFile. case_decide; eexists _, _; split_and!; done.
Qed.

Lemma writeJSONSecrets_total (m : gmap string string) (filepath : string) (w : World) :
  ∃ oerr w' out, writeJSONSecrets m filepath w = (Done oerr, w', out)
    ∧ environ w' = environ w ∧ outputOnly w w'.
Proof.
  rewrite writeJSONSecrets_run. case_decide; by eexists _, _, _.
Qed.

Lemma writeValues_total (dest : string) (kvs : list (string * string)) (w : World) :
  ∃ oerr w' out, writeValues dest kvs w = (Done oerr, w', out)
    ∧ environ w' = environ w ∧ outputOnly w w'.
Proof.
  revert w. induction kvs as [|[k v] rest IH]; intros w; simpl.
  - by eexists _, _, _.
  - destruct (writeFile_run dest v w) as (oerr & w1 & Hrun & He & Ho & _).
    rewrite (bind_Done _ _ _ _ _ _ Hrun).
    destruct oerr as [e|]; [by eexists _, _, _ |].
    rewrite (bind_Done _ _ _ () w1 [LogWroteSecret dest] eq_refl).
    destruct (IH w1) as (oerr & w2 & out & -> & He2 & Ho2).
    eexists _, _, _. split_and!; [done | congruence |].
    by eapply outputOnly_trans.
Qed.

Lemma writeSecretsToDestination_total (def : SecretDefinition) (w : World) :
  ∃ oerr w' out, writeSecretsToDestination def w = (Done oerr, w', out)
    ∧ environ w' = environ w ∧ outputOnly w w'.
Proof.
  unfold writeSecretsToDestination.
  destruct (plural def); [apply writeJSONSecrets_total | apply writeValues_total].
Qed.

(** The two sinks whose errors the loop drops, run one after the other. *)
Lemma outputDefinition_sinks (config : Config) (def : SecretDefinition) (w : World) :
  ∃ w2 out2,
    outputOnly w w2
    ∧ outputDefinition config def w
      = (let '(o, w3, out3) :=
           (if decide (SecretPayloadPath config ≠ "") then
              err ← writeJSONSecrets (secrets def) (SecretPayloadPath config);
              match err with
              | Some e => fatal e
              | None => mret ()
              end
            else mret ()) w2 in
         (o, w3, (out2 ++ out3)%list)).
Proof.
  unfold outputDefinition.
  assert (∃ w1 out1,
    (if SecretEnv config then setEnvSecrets (secrets def);; mret () else mret ()) w
    = (Done (), w1, out1) ∧ outputOnly w w1) as (w1 & out1 & H1 & Ho1).
  { destruct (SecretEnv config); [| by eexists _, _].
    destruct (setEnvLoop_total (rangeMap (secrets def)) w) as (oerr & w1 & out & Hrun & _ & Ho).
    unfold setEnvSecrets. rewrite (bind_Done _ _ _ _ _ _ Hrun). by eexists _, _. }
  assert (∃ w2 out2,
    (if decide (OutputDestination def ≠ "")
     then writeSecretsToDestination def;; mret () else mret ()) w1
    = (Done (), w2, out2) ∧ outputOnly w1 w2) as (w2 & out2 & H2 & Ho2).
  { case_decide; [| by eexists _, _].
    destruct (writeSecretsToDestination_total def w1) as (oerr & w2 & out & Hrun & _ & Ho).
    rewrite (bind_Done _ _ _ _ _ _ Hrun). by eexists _, _. }
  exists w2, (out1 ++ out2)%list. split; [by eapply outputOnly_trans |].
  rewrite (bind_Done _ _ _ _ _ _ H1), (bind_Done _ _ _ _ _ _ H2).
  match goal with |- context [?m w2] => destruct (m w2) as [[o w3] out3] end.
  by rewrite app_assoc.
Qed.

End SinkFacts.

(** X1: the output of one definition ends the run in one case only, a
    failed write of the payload file; an error of [os.Setenv] or of the
    write to the definition's own destination is dropped and the run goes
    on (the return values of [setEnvSecrets] and
    [writeSecretsToDestination] are not looked at). *)
Theorem output_fatal_only_on_payload {rt : GoRuntime} (config : Config)
        (def : SecretDefinition) (w : World) :
  ∃ w' out,
    (outputDefinition config def w = (Done (), w', out)
     ∧ (SecretPayloadPath config = "" ∨ SecretPayloadPath config ∉ readonly w))
    ∨ (outputDefinition config def w
       = (Fatal (ErrWriteFile (SecretPayloadPath config)
                              (IOError (SecretPayloadPath config))), w', out)
       ∧ SecretPayloadPath config ≠ "" ∧ SecretPayloadPath config ∈ readonly w).
Proof.
  destruct (outputDefinition_sinks config def w) as (w2 & out2 & (Hro & _) & ->).
  case_decide as Hp.
  - pose proof (writeJSONSecrets_run (secrets def) (SecretPayloadPath config) w2) as Hw.
    rewrite Hro in Hw.
    destruct (decide (SecretPayloadPath config ∈ readonly w)) as [Hin|Hout].
    + eexists _, _. right. rewrite (bind_Done _ _ _ _ _ _ Hw). by split_and!.
    + eexists _, _. left. rewrite (bind_Done _ _ _ _ _ _ Hw).
      split; [done | by right].
  - eexists _, _. left. split; [done |]. left.
    by destruct (decide (SecretPayloadPath config = "")).
Qed.

Section DestinationFacts.
Context {rt : GoRuntime}.

Lemma rangeMap_empty {A} : rangeMap (∅ : gmap string A) = [].
Proof. apply Permutation_nil_r. by rewrite (rangeMap_perm A ∅), map_to_list_empty. Qed.

Lemma rangeMap_singleton {A} (k : string) (v : A) :
  rangeMap ({[ k := v ]} : gmap string A) = [(k, v)].
Proof.
  apply Permutation_singleton_r.
  by rewrite (rangeMap_perm A {[ k := v ]}), map_to_list_singleton.
Qed.

Lemma length_rangeMap {A} (m : gmap string A) : List.length (rangeMap m) = size m.
Proof. by rewrite (rangeMap_perm A m), length_map_to_list. Qed.

Lemma setFile_setFile (dest v1 v2 : string) (w : World) :
  setFile dest v2 (setFile dest v1 w) = setFile dest v2 w.
Proof. unfold setFile. simpl. by rewrite insert_insert_eq. Qed.

(** Every value is written in turn, each over the one before. *)
Lemma writeValues_writable (dest : string) (kvs : list (string * string)) (w : World) :
  dest ∉ readonly w → kvs ≠ [] →
  ∃ k v, last kvs = Some (k, v)
    ∧ writeValues dest kvs w
      = (Done None, setFile dest v w,
         replicate (List.length kvs) (LogWroteSecret dest)).
Proof.
  revert w. induction kvs as [|[k v] rest IH]; intros w Hw Hne; [done |].
  simpl writeValues.
  destruct (writeFile_run dest v w) as (oerr & w1 & Hrun & _ & _ & _ & Hok).
  destruct (Hok Hw) as [-> ->]. rewrite (bind_Done _ _ _ _ _ _ Hrun).
  rewrite (bind_Done _ _ _ () (setFile dest v w) [LogWroteSecret dest] eq_refl).
  destruct rest as [|kv rest].
  - exists k, v. by split.
  - destruct (IH (setFile dest v w)) as (k' & v' & Hlast & ->); [done | done |].
    exists k', v'. split; [done |]. by rewrite setFile_setFile.
Qed.

(** The first write that fails ends the loop. *)
Lemma writeValues_readonly (dest : string) (kvs : list (string * string)) (w : World) :
  dest ∈ readonly w → kvs ≠ [] →
  writeValues dest kvs w = (Done (Some (ErrWriteFile dest (IOError dest))), w, []).
Proof.
  intros Hw Hne. destruct kvs as [|[k v] rest]; [done |]. simpl.
  destruct (writeFile_run dest v w) as (oerr & w1 & Hrun & _ & _ & Hro & _).
  destruct (Hro Hw) as [-> ->]. by rewrite (bind_Done _ _ _ _ _ _ Hrun).
Qed.

End DestinationFacts.

(** X2: [writeSecretsToDestination].  A plural definition gets the JSON
    of its secrets at its destination.  A singular definition gets the raw
    bytes of a secret value: nothing at all when it has no secret, the
    value when it has one, and, when it has several, each written over the
    one before, so that the file ends with one of them.  When the
    destination cannot be written, the first write fails, nothing is
    written and the error is returned. *)
Theorem destination_file_content {rt : GoRuntime} (def : SecretDefinition) (w : World) :
  (plural def = true → OutputDestination def ∉ readonly w →
   writeSecretsToDestination def w
   = (Done None, setFile (OutputDestination def) (Marshal (secrets def)) w,
      [LogWroteSecrets (size (secrets def)) (OutputDestination def)]))
  ∧ (plural def = false → secrets def = ∅ →
     writeSecretsToDestination def w = (Done None, w, []))
  ∧ (∀ k v, plural def = false → secrets def = {[ k := v ]} →
       OutputDestination def ∉ readonly w →
       writeSecretsToDestination def w
       = (Done None, setFile (OutputDestination def) v w,
          [LogWroteSecret (OutputDestination def)]))
  ∧ (plural def = false → secrets def ≠ ∅ → OutputDestination def ∉ readonly w →
     ∃ k v, secrets def !! k = Some v
       ∧ writeSecretsToDestination def w
         = (Done None, setFile (OutputDestination def) v w,
            replicate (size (secrets def)) (LogWroteSecret (OutputDestination def))))
  ∧ (OutputDestination def ∈ readonly w → plural def = true ∨ secrets def ≠ ∅ →
     writeSecretsToDestination def w
     = (Done (Some (ErrWriteFile (OutputDestination def)
                                 (IOError (OutputDestination def)))), w, [])).
Proof.
  unfold writeSecretsToDestination. split_and!.
  - intros -> Hw. rewrite writeJSONSecrets_run. by case_decide.
  - intros -> ->. by rewrite rangeMap_empty.
  - intros k v -> -> Hw. rewrite rangeMap_singleton.
    destruct (writeValues_writable (OutputDestination def) [(k, v)] w Hw)
      as (k' & v' & [= <- <-] & ->); done.
  - intros -> Hne Hw.
    destruct (writeValues_writable (OutputDestination def) (rangeMap (secrets def)) w Hw)
      as (k & v & Hlast & ->).
    { intros Hnil. apply Hne, map_to_list_empty_iff, Permutation_nil_r.
      by rewrite <- (rangeMap_perm _ (secrets def)), Hnil. }
    exists k, v. rewrite length_rangeMap. split; [| done].
    by apply elem_of_rangeMap, last_Some_elem_of.
  - intros Hw [->|Hne].
    + rewrite writeJSONSecrets_run. by case_decide.
    + destruct (plural def).
      * rewrite writeJSONSecrets_run. by case_decide.
      * apply writeValues_readonly; [done |].
        intros Hnil. apply Hne, map_to_list_empty_iff, Permutation_nil_r.
        by rewrite <- (rangeMap_perm _ (secrets def)), Hnil.
Qed.

(** ** The export to the process environment: [setEnvSecrets] *)

Section EnvironmentFacts.
Context {rt : GoRuntime}.







End EnvironmentFacts.


Example export_two_secrets :
  let r := setEnvSecrets (rt := SampleRuntime.runtime)
             {[ "user" := "u1"; "pass" := "p1" ]} (worldOf ["HOME=/root"; "user=old"]) in
  r.1.1 = Done None
  ∧ environ r.1.2 = ["HOME=/root"; "user=u1"; "pass=p1"].
Proof. vm_compute. done. Qed.

Example export_refused_name :
  (setEnvSecrets (rt := SampleRuntime.runtime) {[ "a=b" := "v" ]} (worldOf [])).1.1
  = Done (Some (ErrSetenv "a=b")).
Proof. vm_compute. done. Qed.

(** ** The merge and the order of the [range] loop *)

(** X4: the result of [addSecrets] does not depend on the order in which
    the [range] loop visits the attributes of the secret: two attributes
    of one result never go to the same key of the definition, so whatever
    the order, a merge that returns under one order returns the same
    definition under any other. *)
Theorem addSecrets_order_independent (rt1 rt2 : GoRuntime) (client : Client)
        (sd : SecretDefinition) (r : SecretResult) (w w' : World)
        (x : SecretDefinition * option error) (out : list LogLine) :
  addSecrets (rt := rt1) client sd r w = (Done x, w', out) →
  addSecrets (rt := rt2) client sd r w = (Done x, w', out).
Proof.
  destruct x as [sd' oerr].
  intros (secret & m1 & Herr & Hsec & -> & -> & -> & -> & Hrun1)%addSecrets_Done_inv.
  set (keyName := (GoPath.Split (KeyPath r)).2) in *.
  destruct (mergeData_inv _ _ _ _ _ _ _ Hrun1) as (_ & _ & Hstr1 & Hget1 & Hframe1).
  specialize (Hget1 (NoDup_rangeMap (rt := rt1) _)).
  destruct (mergeData_total keyName (rangeMap (GoRuntime := rt2) (Data secret))
              (secrets sd) w) as [m2 Hrun2].
  { intros k v Hkv%(elem_of_rangeMap (rt := rt2)).
    apply (Hstr1 k v). by apply (elem_of_rangeMap (rt := rt1)). }
  destruct (mergeData_inv _ _ _ _ _ _ _ Hrun2) as (_ & _ & _ & Hget2 & Hframe2).
  specialize (Hget2 (NoDup_rangeMap (rt := rt2) _)).
  assert (m2 = m1) as ->.
  { apply map_eq. intros key.
    destruct (decide (Exists (λ kv, key = secretKey keyName kv.1)
                             (rangeMap (GoRuntime := rt1) (Data secret))))
      as [Hex|Hnex].
    - apply Exists_exists in Hex as ([k v] & Hin & ->). simpl.
      destruct (Hstr1 k v Hin) as [s ->].
      rewrite (Hget1 k s Hin). apply Hget2.
      apply (elem_of_rangeMap (rt := rt2)). by apply (elem_of_rangeMap (rt := rt1)).
    - rewrite Hframe1, Hframe2; [done | |].
      + intros k v Hin%(elem_of_rangeMap (rt := rt2)) ->. apply Hnex.
        apply Exists_exists. exists (k, v). split; [| done].
        by apply (elem_of_rangeMap (rt := rt1)).
      + intros k v Hin ->. apply Hnex. apply Exists_exists. by exists (k, v). }
  unfold addSecrets. rewrite Herr, Hsec. fold keyName.
  by rewrite (bind_Done _ _ _ _ _ _ Hrun2).
Qed.

(** The sample result merged under the two sample runtimes. *)
Lemma addSecrets_order_independent_witness :
  addSecrets (rt := reversedRuntime) emptyStore sampleDefinition sampleResult (worldOf [])
  = (Done (withSecrets {[ "DB" := "v1"; "DB_user" := "u"; "DB_pass" := "p" ]}
                       sampleDefinition, None),
     worldOf [], []).
Proof.
  apply (addSecrets_order_independent SampleRuntime.runtime reversedRuntime).
  vm_compute. reflexivity.
Defined.

(** ** The first loop of [SecretFetcher] as a whole *)

Section DiscoveryFacts.
Context {rt : GoRuntime}.

Lemma newDefinition_Some_inv (envKey apex : string) (d : SecretDefinition) :
  newDefinition envKey apex = Some d →
  apex ≠ "" ∧ EnvKey d = envKey ∧ SecretApex d = apex ∧ OutputDestination d = ""
  ∧ ((plural d = false ∧ envKey = secretStoragePathPrefix ++ SecretID d ∧ paths d = [apex])
     ∨ (plural d = true ∧ envKey = secretsStoragePathPrefix ++ SecretID d ∧ paths d = [])).
Proof.
  unfold newDefinition. case_decide as Hapex; [done |].
  destruct (GoStrings.HasPrefix envKey secretStoragePathPrefix) eqn:E1.
  { apply HasPrefix_inv in E1 as [id ->]. rewrite TrimPrefix_append.
    intros [= <-]. split_and!; try done. by left. }
  destruct (GoStrings.HasPrefix envKey secretsStoragePathPrefix) eqn:E2; [| done].
  apply HasPrefix_inv in E2 as [id ->]. rewrite TrimPrefix_append.
  intros [= <-]. split_and!; try done. by right.
Qed.

Lemma fetchDefinition_fields (client : Client) (config : Config)
      (d d' : SecretDefinition) (w w' : World) (out : list LogLine) :
  fetchDefinition client config d w = (Done d', w', out) →
  EnvKey d' = EnvKey d ∧ SecretID d' = SecretID d ∧ SecretApex d' = SecretApex d
  ∧ plural d' = plural d ∧ OutputDestination d' = OutputDestination d
  ∧ (plural d = false → paths d' = paths d).
Proof.
  unfold fetchDefinition.
  intros (d1 & w1 & o1 & o2 & Hwalk & Hrest & _)%bind_Done_inv.
  apply bind_Done_inv in Hrest as ([] & w2 & o3 & o4 & _ & Hfold & _).
  apply foldM_takeResult_paths in Hfold as (Hp & Hpl & Hk & Hid & Ha & Hd).
  destruct (plural d) eqn:Hplural.
  - apply bind_Done_inv in Hwalk as ([d2 oerr] & w3 & o5 & o6 & Hwalk & Hret & _).
    destruct oerr; [done |]. injection Hret as <- <-.
    apply Walk_success_inv in Hwalk as (l & names & _ & _ & -> & _).
    simpl in *. by rewrite Hpl, Hk, Hid, Ha, Hd.
  - injection Hwalk as <- <-. by rewrite Hp, Hpl, Hk, Hid, Ha, Hd.
Qed.

(** One turn of the first loop that completes keeps the definitions found
    so far and adds at most one, for the entry at hand. *)
Lemma processEntry_Done_inv (client : Client) (config : Config)
      (defs defs' : list SecretDefinition) (env : string)
      (w w' : World) (out : list LogLine) :
  processEntry client config defs env w = (Done defs', w', out) →
  defs' = defs
  ∨ ∃ d, defs' = (defs ++ [d])%list ∧ EnvKey d = entryKey env
         ∧ discovered config (environ w) d.
Proof.
  unfold processEntry. fold (entryKey env).
  intros (apex & w1 & o1 & o2 & [= <- <- <-] & Hentry & _)%bind_Done_inv.
  destruct (newDefinition _ _) as [def|] eqn:Hnew; [| by left; injection Hentry as <- <-].
  apply newDefinition_Some_inv in Hnew as (Hapex & Hkey & Hap & _ & Hshape).
  apply bind_Done_inv in Hentry as (dest & w2 & o3 & o4 & [= <- <- <-] & Hentry & _).
  destruct (noOutputMethod config (withOutputDestination _ def)) eqn:Hgate.
  - apply bind_Done_inv in Hentry as ([] & w3 & o5 & o6 & _ & Hentry & _).
    left. by injection Hentry as <- <-.
  - apply bind_Done_inv in Hentry as (d & w3 & o5 & o6 & Hfetch & Hentry & _).
    injection Hentry as <- <-. right. exists d.
    apply fetchDefinition_fields in Hfetch as (Hk & Hid & Ha & Hpl & Hd & Hp).
    simpl in Hk, Hid, Ha, Hpl, Hd, Hp.
    split; [done |]. split; [congruence |]. unfold discovered.
    rewrite Hk, Hid, Ha, Hpl, Hd, Hkey, Hap. split_and!; try done.
    + destruct Hshape as [(Hf & Hname & Hpaths)|(Ht & Hname & _)].
      * left. rewrite Hp, Hpaths; [| done]. by rewrite <- Hname.
      * right. by rewrite <- Hname.
    + unfold noOutputMethod in *. simpl in Hgate. by rewrite Hd.
Qed.

Lemma discover_from (client : Client) (config : Config) (envs : list string)
      (defs0 defs : list SecretDefinition) (w w' : World) (out : list LogLine) :
  foldM (processEntry client config) defs0 envs w = (Done defs, w', out) →
  ∃ new, defs = (defs0 ++ new)%list
    ∧ (EnvKey <$> new) `sublist_of` (entryKey <$> envs)
    ∧ Forall (discovered config (environ w)) new.
Proof.
  revert defs0 w out. induction envs as [|env envs IH]; intros defs0 w out; simpl.
  - intros [= <- <- <-]. exists []. by rewrite app_nil_r.
  - intros (defs1 & w1 & o1 & o2 & Hentry & Hrest & _)%bind_Done_inv.
    pose proof (preserves_processEntry _ _ _ _ _ _ _ _ Hentry) as (Henv & _).
    apply IH in Hrest as (new & -> & Hsub & Hall). rewrite Henv in Hall.
    apply processEntry_Done_inv in Hentry as [->|(d & -> & Hkey & Hd)].
    + exists new. split_and!; [done | by apply sublist_cons | done].
    + exists (d :: new). rewrite <- app_assoc. split_and!; [done | |].
      * simpl. rewrite Hkey. by apply sublist_skip.
      * by apply Forall_cons.
Qed.

Lemma processEntry_ignored (client : Client) (config : Config)
      (defs : list SecretDefinition) (env : string) (w : World) :
  GoOs.Getenv (environ w) (entryKey env) = ""
  ∨ (GoStrings.HasPrefix (entryKey env) secretStoragePathPrefix = false
     ∧ GoStrings.HasPrefix (entryKey env) secretsStoragePathPrefix = false) →
  processEntry client config defs env w = (Done defs, w, []).
Proof.
  intros Hignored. unfold processEntry. fold (entryKey env).
  rewrite (bind_Done _ _ _ _ _ _ eq_refl).
  assert (newDefinition (entryKey env) (GoOs.Getenv (environ w) (entryKey env)) = None)
    as ->; [| done].
  unfold newDefinition. destruct Hignored as [->|[-> ->]]; [done |].
  by case_decide.
Qed.

Lemma outputDefinition_outputOnly (config : Config) (def : SecretDefinition)
      (w w' : World) o (out : list LogLine) :
  outputDefinition config def w = (o, w', out) → outputOnly w w'.
Proof.
  destruct (outputDefinition_sinks config def w) as (w2 & out2 & Ho & ->).
  case_decide.
  - destruct (writeJSONSecrets_total (secrets def) (SecretPayloadPath config) w2)
      as (oerr & w3 & out3 & Hrun & _ & Ho3).
    rewrite (bind_Done _ _ _ _ _ _ Hrun).
    destruct oerr; intros [= <- <- <-]; by eapply outputOnly_trans.
  - by intros [= <- <- <-].
Qed.

Lemma output_loop_outputOnly (config : Config) (defs : list SecretDefinition)
      (w w' : World) o (out : list LogLine) :
  forM_ (outputDefinition config) defs w = (o, w', out) → outputOnly w w'.
Proof.
  revert w out. induction defs as [|d defs IH]; intros w out; simpl.
  - intros [= <- <- <-]. apply outputOnly_refl.
  - destruct (outputDefinition config d w) as [[[[]| | |] w1] o1] eqn:Hd;
      pose proof (outputDefinition_outputOnly _ _ _ _ _ _ Hd) as Ho.
    + rewrite (bind_Done _ _ _ _ _ _ Hd).
      destruct (forM_ _ defs w1) as [[o2 w2] out2] eqn:Hrest.
      intros [= <- <- <-]. eapply outputOnly_trans; [done | by eapply IH].
    + rewrite (bind_Fatal _ _ _ _ _ _ Hd). by intros [= <- <- <-].
    + rewrite (bind_Panic _ _ _ _ _ _ Hd). by intros [= <- <- <-].
    + rewrite (bind_Blocked _ _ _ _ _ Hd). by intros [= <- <- <-].
Qed.

End DiscoveryFacts.

(** X5: when the first loop of [SecretFetcher] completes, the definitions
    it has kept come in the order of the environment's entries, at most
    one for an entry; each has the name of its entry, split into the
    singular or the plural prefix and its identifier, the value of that
    variable, not empty, as apex (and as only path when singular), the
    destination the environment gives for its identifier, and some output
    method. *)
Theorem discover_definitions {rt : GoRuntime} (client : Client) (config : Config)
        (envs : list string) (defs : list SecretDefinition)
        (w w' : World) (out : list LogLine) :
  discover client config envs w = (Done defs, w', out) →
  (EnvKey <$> defs) `sublist_of` (entryKey <$> envs)
  ∧ Forall (discovered config (environ w)) defs.
Proof.
  unfold discover. intros (new & -> & Hsub & Hall)%discover_from. done.
Qed.

(** The sample environment with one global output mode: both secrets are
    kept, in order. *)
Lemma discover_definitions_witness :
  ∃ defs w' out,
    discover (rt := SampleRuntime.runtime) sampleStore (mkConfig 2 "/payload" false)
             sampleTable (worldOf sampleTable) = (Done defs, w', out)
    ∧ EnvKey <$> defs = ["VAULT_SECRET_API"; "VAULT_SECRETS_DB"]
    ∧ Forall (discovered (rt := SampleRuntime.runtime) (mkConfig 2 "/payload" false)
                         sampleTable) defs.
Proof.
  destruct (discover (rt := SampleRuntime.runtime) sampleStore (mkConfig 2 "/payload" false)
                     sampleTable (worldOf sampleTable)) as [[o w'] out] eqn:Hrun.
  assert (∃ defs, o = Done defs ∧ EnvKey <$> defs = ["VAULT_SECRET_API"; "VAULT_SECRETS_DB"])
    as (defs & -> & Hkeys).
  { apply (f_equal (λ r, r.1.1)) in Hrun. vm_compute in Hrun. subst o.
    eexists. split; [reflexivity |]. vm_compute. reflexivity. }
  exists defs, w', out. split_and!; [done | done |].
  exact (proj2 (discover_definitions (rt := SampleRuntime.runtime) _ _ _ _ _ _ _ Hrun)).
Defined.

(** X6: the two phases of [SecretFetcher].  The first loop, with all the
    calls to the store, writes no file and no environment variable; the
    second loop, with all the writes, makes no call to the store.  So when
    the first loop does not complete (a fatal error, a panic), the run
    ends there and nothing has been written for any definition. *)
Theorem SecretFetcher_phases {rt : GoRuntime} (client : Client) (config : Config)
        (w : World) :
  sameSurroundings w (discover client config (GoOs.Environ (environ w)) w).1.2
  ∧ outputOnly (discover client config (GoOs.Environ (environ w)) w).1.2
               (SecretFetcher client config w).1.2
  ∧ ((∀ defs, (discover client config (GoOs.Environ (environ w)) w).1.1 ≠ Done defs) →
     SecretFetcher client config w
     = ((discover client config (GoOs.Environ (environ w)) w).1.1,
        (discover client config (GoOs.Environ (environ w)) w).1.2,
        LogStarting :: (discover client config (GoOs.Environ (environ w)) w).2)).
Proof.
  unfold SecretFetcher.
  rewrite (bind_Done _ _ _ () w [LogStarting] eq_refl).
  rewrite (bind_Done _ _ _ (GoOs.Environ (environ w)) w [] eq_refl).
  destruct (discover client config (GoOs.Environ (environ w)) w)
    as [[[defs| | |] w1] out1] eqn:Hd; simpl;
    (split; [by eapply preserves_discover |]).
  - rewrite (bind_Done _ _ _ _ _ _ Hd).
    destruct (forM_ (outputDefinition config) defs w1) as [[[[]| | |] w2] out2] eqn:Ho;
      pose proof (output_loop_outputOnly _ _ _ _ _ _ Ho) as Hout.
    + rewrite (bind_Done _ _ _ _ _ _ Ho). simpl. split; [done |].
      intros Hnot. by destruct (Hnot defs).
    + rewrite (bind_Fatal _ _ _ _ _ _ Ho). simpl. split; [done |].
      intros Hnot. by destruct (Hnot defs).
    + rewrite (bind_Panic _ _ _ _ _ _ Ho). simpl. split; [done |].
      intros Hnot. by destruct (Hnot defs).
    + rewrite (bind_Blocked _ _ _ _ _ Ho). simpl. split; [done |].
      intros Hnot. by destruct (Hnot defs).
  - rewrite (bind_Fatal _ _ _ _ _ _ Hd). simpl. split; [apply outputOnly_refl | done].
  - rewrite (bind_Panic _ _ _ _ _ _ Hd). simpl. split; [apply outputOnly_refl | done].
  - rewrite (bind_Blocked _ _ _ _ _ Hd). simpl. split; [apply outputOnly_refl | done].
Qed.

(** X7: an environment in which no variable with a value has the singular
    or the plural prefix: the run completes with no definition, prints its
    first log line only, and leaves the world as it was, with no call to
    the store and nothing written. *)
Theorem SecretFetcher_without_references {rt : GoRuntime} (client : Client)
        (config : Config) (w : World) :
  (∀ env, env ∈ GoOs.Environ (environ w) →
     GoOs.Getenv (environ w) (entryKey env) = ""
     ∨ (GoStrings.HasPrefix (entryKey env) secretStoragePathPrefix = false
        ∧ GoStrings.HasPrefix (entryKey env) secretsStoragePathPrefix = false)) →
  SecretFetcher client config w = (Done [], w, [LogStarting]).
Proof.
  intros Hnone. unfold SecretFetcher.
  rewrite (bind_Done _ _ _ () w [LogStarting] eq_refl).
  rewrite (bind_Done _ _ _ (GoOs.Environ (environ w)) w [] eq_refl).
  assert (∀ envs, (∀ env, env ∈ envs → env ∈ GoOs.Environ (environ w)) →
            foldM (processEntry client config) [] envs w = (Done [], w, [])) as Hloop.
  { induction envs as [|env envs IH]; intros Hin; simpl; [done |].
    rewrite (bind_Done _ _ _ [] w []).
    - rewrite IH; [done |]. intros e He. apply Hin. by right.
    - apply processEntry_ignored, Hnone, Hin. by left. }
  unfold discover. by rewrite (bind_Done _ _ _ _ _ _ (Hloop _ (λ _ H, H))).
Qed.

(** An environment with no secret reference at all. *)
Lemma SecretFetcher_without_references_witness :
  SecretFetcher (rt := SampleRuntime.runtime) sampleStore (mkConfig 2 "/payload" true)
                (worldOf ["HOME=/root"; "VAULT_ADDR=https://vault"; "VAULT_SECRET_EMPTY="])
  = (Done [], worldOf ["HOME=/root"; "VAULT_ADDR=https://vault"; "VAULT_SECRET_EMPTY="],
     [LogStarting]).
Proof.
  apply (SecretFetcher_without_references (rt := SampleRuntime.runtime)).
  intros env Hin. vm_compute in Hin.
  repeat (apply elem_of_cons in Hin as [->|Hin];
          [vm_compute; first [by left | by right] |]).
  by apply elem_of_nil in Hin.
Defined.

(** ** The batch of one definition: requests, results and merges *)

Section BatchFacts.
Context {rt : GoRuntime}.

(** The reader, with a worker and a request in flight: the result is the
    store's answer for one request in flight, which is in flight no more. *)
Lemma ReadSecretResult_pick (client : Client) (n : nat) (w : World) :
  inflight w ≠ [] →
  ∃ r w', ReadSecretResult client (S n) w = (Done r, w', [])
    ∧ (Secret r, Err r) = Logical_Read client (KeyPath r)
    ∧ inflight w ≡ₚ KeyPath r :: inflight w'
    ∧ submitted w' = submitted w.
Proof.
  intros Hne. unfold ReadSecretResult.
  destruct (inflight w) as [|p0 rest] eqn:Ei; [done |].
  set (i := hd 0 (completion w) `mod` List.length (p0 :: rest)).
  assert (i < List.length (p0 :: rest)) as Hi.
  { apply Nat.mod_upper_bound. simpl. lia. }
  destruct (lookup_lt_is_Some_2 _ _ Hi) as [p Hp]. rewrite Hp. simpl.
  destruct (Logical_Read client p) as [secret err] eqn:Hread.
  eexists _, _. split_and!; [reflexivity | simpl; by rewrite Hread | | done].
  simpl. by apply delete_Permutation.
Qed.

Lemma mergeData_sound (keyName : string) (kvs : list (string * value))
      (acc m : gmap string string) (w w' : World) (out : list LogLine) :
  mergeData keyName kvs acc w = (Done m, w', out) →
  ∀ key v, m !! key = Some v →
    acc !! key = Some v ∨ ∃ k, (k, VString v) ∈ kvs ∧ key = secretKey keyName k.
Proof.
  revert acc. induction kvs as [|[k x] rest IH]; intros acc; simpl.
  - intros [= <- <- <-] key v Hv. by left.
  - intros (s & w1 & o1 & o2 & Hs & Hrest & ->)%bind_Done_inv key v Hv.
    destruct x; simpl in Hs; try done. injection Hs as <- <- <-.
    destruct (IH _ Hrest key v Hv) as [Hacc|(k' & Hin & ->)].
    + apply lookup_insert_Some in Hacc as [[<- <-]|[_ Hacc]]; [| by left].
      right. exists k. split; [by left | done].
    + right. exists k'. split; [by right | done].
Qed.

Lemma mergeData_mono (keyName : string) (kvs : list (string * value))
      (acc m : gmap string string) (w w' : World) (out : list LogLine) :
  mergeData keyName kvs acc w = (Done m, w', out) →
  ∀ key, is_Some (acc !! key) → is_Some (m !! key).
Proof.
  revert acc. induction kvs as [|[k x] rest IH]; intros acc; simpl.
  - by intros [= <- <- <-].
  - intros (s & w1 & o1 & o2 & Hs & Hrest & ->)%bind_Done_inv key Hkey.
    destruct x; simpl in Hs; try done. injection Hs as <- <- <-.
    apply (IH _ Hrest). rewrite lookup_insert_is_Some. 
    destruct (decide (secretKey keyName k = key)); [by left | by right].
Qed.

(** One turn of the loop that takes the results, when it completes. *)
Lemma takeResult_Done_merge (client : Client) (config : Config) (n : nat)
      (d d1 : SecretDefinition) (w w1 : World) (out : list LogLine) :
  Workers config = S n → inflight w ≠ [] →
  takeResult client config d w = (Done d1, w1, out) →
  ∃ p secret m,
    inflight w ≡ₚ p :: inflight w1 ∧ submitted w1 = submitted w
    ∧ Logical_Read client p = (Some secret, None)
    ∧ d1 = withSecrets m d
    ∧ mergeData (GoPath.Split p).2 (rangeMap (Data secret)) (secrets d) w1
      = (Done m, w1, []).
Proof.
  intros Hn Hne. unfold takeResult. rewrite Hn.
  destruct (ReadSecretResult_pick client n w Hne) as (r & w2 & Hread & Hres & Hperm & Hsub).
  rewrite (bind_Done _ _ _ _ _ _ Hread).
  destruct (mergeResult client d r w2) as [[o w3] o3] eqn:Hm. intros [= -> -> <-].
  pose proof (mergeResult_world _ _ _ _ _ _ _ Hm) as [-> _].
  apply mergeResult_Done_inv in Hm as (Herr & secret & m & Hsec & -> & Hadd).
  apply addSecrets_Done_inv in Hadd as (secret' & m' & _ & Hsec' & _ & _ & _ & Hd & Hmerge).
  rewrite Hsec in Hsec'. injection Hsec' as <-.
  exists (KeyPath r), secret, m'. split_and!; try done.
  by rewrite <- Hres, Hsec, Herr.
Qed.

Lemma takeResults_attribution (client : Client) (config : Config) (n : nat) {A}
      (l : list A) (d d' : SecretDefinition) (w w' : World) (out : list LogLine) :
  Workers config = S n →
  List.length (inflight w) = List.length l →
  foldM (λ d _, takeResult client config d) d l w = (Done d', w', out) →
  (∀ key v, secrets d' !! key = Some v →
     secrets d !! key = Some v
     ∨ ∃ p secret k, p ∈ inflight w ∧ Logical_Read client p = (Some secret, None)
         ∧ Data secret !! k = Some (VString v)
         ∧ key = secretKey (GoPath.Split p).2 k)
  ∧ (∀ p, p ∈ inflight w →
       ∃ secret, Logical_Read client p = (Some secret, None)
         ∧ ∀ k v, Data secret !! k = Some v →
             ∃ s, v = VString s
               ∧ is_Some (secrets d' !! secretKey (GoPath.Split p).2 k))
  ∧ (∀ key, is_Some (secrets d !! key) → is_Some (secrets d' !! key)).
Proof.
  intros Hn. revert d w out. induction l as [|x l IH]; intros d w out Hlen; simpl.
  - intros [= <- <- <-]. apply nil_length_inv in Hlen. rewrite Hlen.
    split_and!; [by left | | done]. intros p Hp. by apply elem_of_nil in Hp.
  - intros (d1 & w1 & o1 & o2 & Htake & Hrest & _)%bind_Done_inv.
    apply (takeResult_Done_merge client config n) in Htake
      as (p & secret & m & Hperm & _ & Hread & -> & Hmerge); [| done |].
    2:{ intros Hnil. by rewrite Hnil in Hlen. }
    assert (List.length (inflight w1) = List.length l) as Hlen1.
    { apply Permutation_length in Hperm. simpl in *. lia. }
    destruct (IH _ _ _ Hlen1 Hrest) as (Hsound & Hcomplete & Hmono).
    destruct (mergeData_inv _ _ _ _ _ _ _ Hmerge) as (_ & _ & Hstr & Hget & _).
    specialize (Hget (NoDup_rangeMap _)).
    simpl in Hsound, Hmono, Hcomplete. split_and!.
    + intros key v Hv. destruct (Hsound key v Hv) as [Hm|(p' & s' & k & Hin & ?)].
      * destruct (mergeData_sound _ _ _ _ _ _ _ Hmerge key v Hm)
          as [Hacc|(k & Hin%elem_of_rangeMap & ->)]; [by left |].
        right. exists p, secret, k. split_and!; try done. rewrite Hperm. by left.
      * right. exists p', s', k. split; [| done]. rewrite Hperm. by right.
    + intros p' Hp'. rewrite Hperm in Hp'.
      apply elem_of_cons in Hp' as [->|Hp']; [| by apply Hcomplete].
      exists secret. split; [done |]. intros k v Hkv%elem_of_rangeMap.
      destruct (Hstr k v Hkv) as [s ->]. exists s. split; [done |].
      apply Hmono. rewrite (Hget k s Hkv). by eexists.
    + intros key Hkey. apply Hmono. by eapply mergeData_mono.
Qed.

(** The first loop never blocks on the reader, turn after turn. *)
Lemma processEntry_closed (client : Client) (config : Config)
      (defs : list SecretDefinition) (env : string)
      (w w' : World) o (out : list LogLine) :
  (1 ≤ Workers config)%nat → inflight w = [] →
  processEntry client config defs env w = (o, w', out) →
  o ≠ Blocked ∧ (∀ defs', o = Done defs' → inflight w' = []).
Proof.
  intros Hworkers Hin. unfold processEntry.
  rewrite (bind_Done _ _ _ _ _ _ eq_refl).
  destruct (newDefinition _ _) as [def|]; [| by intros [= <- <- <-]].
  rewrite (bind_Done _ _ _ _ _ _ eq_refl).
  destruct (noOutputMethod config _).
  { rewrite (bind_Done _ _ _ () w [LogNoOutputMethod (EnvKey _)] eq_refl).
    by intros [= <- <- <-]. }
  match goal with |- context [fetchDefinition client config ?d] =>
    destruct (fetchDefinition client config d w) as [[[d1| | |] w1] o1] eqn:Hf;
    pose proof (fetchDefinition_closed_batch _ _ _ _ _ _ _ Hworkers Hin Hf) as [Hnb Hdone]
  end; try done.
  - rewrite (bind_Done _ _ _ _ _ _ Hf). intros [= <- <- <-].
    split; [done |]. intros _ _. by destruct (Hdone d1 eq_refl).
  - rewrite (bind_Fatal _ _ _ _ _ _ Hf). by intros [= <- <- <-].
  - rewrite (bind_Panic _ _ _ _ _ _ Hf). by intros [= <- <- <-].
Qed.

Lemma discover_closed (client : Client) (config : Config) (envs : list string)
      (defs : list SecretDefinition) (w w' : World) o (out : list LogLine) :
  (1 ≤ Workers config)%nat → inflight w = [] →
  foldM (processEntry client config) defs envs w = (o, w', out) →
  o ≠ Blocked.
Proof.
  intros Hworkers. revert defs w out.
  induction envs as [|env envs IH]; intros defs w out Hin; simpl.
  - by intros [= <- <- <-].
  - destruct (processEntry client config defs env w) as [[[defs1| | |] w1] o1] eqn:He;
      pose proof (processEntry_closed _ _ _ _ _ _ _ _ Hworkers Hin He) as [Hnb Hdone];
      try done.
    + rewrite (bind_Done _ _ _ _ _ _ He).
      destruct (foldM _ defs1 envs w1) as [[o2 w2] out2] eqn:Hrest.
      intros [= <- <- <-]. eapply IH; [| done]. by apply (Hdone defs1).
    + rewrite (bind_Fatal _ _ _ _ _ _ He). by intros [= <- <- <-].
    + rewrite (bind_Panic _ _ _ _ _ _ He). by intros [= <- <- <-].
Qed.

Lemma output_loop_not_blocked (config : Config) (defs : list SecretDefinition)
      (w w' : World) o (out : list LogLine) :
  forM_ (outputDefinition config) defs w = (o, w', out) → o ≠ Blocked.
Proof.
  revert w out. induction defs as [|d defs IH]; intros w out; simpl.
  - by intros [= <- <- <-].
  - destruct (outputDefinition_sinks config d w) as (w2 & out2 & _ & Hd).
    destruct (outputDefinition config d w) as [[[[]| | |] w1] o1] eqn:Ho.
    + rewrite (bind_Done _ _ _ _ _ _ Ho).
      destruct (forM_ _ defs w1) as [[o2 w3] out3] eqn:Hrest.
      intros [= <- <- <-]. by eapply IH.
    + rewrite (bind_Fatal _ _ _ _ _ _ Ho). by intros [= <- <- <-].
    + rewrite (bind_Panic _ _ _ _ _ _ Ho). by intros [= <- <- <-].
    + exfalso. case_decide.
      * destruct (writeJSONSecrets_total (secrets d) (SecretPayloadPath config) w2)
          as (oerr & w3 & out3 & Hrun & _).
        rewrite (bind_Done _ _ _ _ _ _ Hrun) in Hd. by destruct oerr.
      * done.
Qed.

End BatchFacts.

(** X8: attribution in the batch of one definition (lines 112-134).
    With a worker, and no request in flight when the definition starts,
    when the definition completes: every value among its secrets was there
    before or is the string value of an attribute that the store gives for
    one of the definition's paths, under the key [addSecrets] makes of that
    path and that attribute; for every path of the definition the store
    gave a secret with no error, whose attributes are all strings and all
    have their key among the secrets; and every request made has had its
    result taken. *)
Theorem fetch_attribution {rt : GoRuntime} (client : Client) (config : Config)
        (def def' : SecretDefinition) (w w' : World) (out : list LogLine) :
  (1 ≤ Workers config)%nat → inflight w = [] →
  fetchDefinition client config def w = (Done def', w', out) →
  (∀ key v, secrets def' !! key = Some v →
     secrets def !! key = Some v
     ∨ ∃ p secret k, p ∈ paths def' ∧ Logical_Read client p = (Some secret, None)
         ∧ Data secret !! k = Some (VString v)
         ∧ key = secretKey (GoPath.Split p).2 k)
  ∧ (∀ p, p ∈ paths def' →
       ∃ secret, Logical_Read client p = (Some secret, None)
         ∧ ∀ k v, Data secret !! k = Some v →
             ∃ s, v = VString s
               ∧ is_Some (secrets def' !! secretKey (GoPath.Split p).2 k))
  ∧ inflight w' = []
  ∧ submitted w' = (submitted w ++ paths def')%list.
Proof.
  intros Hworkers Hin Hrun.
  destruct (Workers config) as [|n] eqn:Hn; [lia |].
  pose proof Hrun as Hrun'. unfold fetchDefinition in Hrun.
  apply bind_Done_inv in Hrun as (d1 & w1 & o1 & o2 & Hwalk & Hrest & _).
  assert (secrets d1 = secrets def ∧ inflight w1 = []) as [Hsec Hin1].
  { destruct (plural def).
    - apply bind_Done_inv in Hwalk as ([d2 oerr] & w3 & o5 & o6 & Hwalk & Hret & _).
      destruct oerr; [done |]. injection Hret as <- <-.
      by apply Walk_success_inv in Hwalk as (l & names & _ & _ & -> & ->).
    - by injection Hwalk as <- <-. }
  apply bind_Done_inv in Hrest as ([] & w2 & o3 & o4 & Hsub & Hfold & _).
  destruct (forM__AsyncRequestKeyPath (paths d1) w1) as (w2' & Hsub' & Hs2 & Hi2 & _).
  rewrite Hsub' in Hsub. injection Hsub as <- <-. rewrite Hin1 in Hi2. simpl in Hi2.
  pose proof (foldM_takeResult_paths _ _ _ _ _ _ _ _ Hfold) as (Hpaths & _).
  destruct (takeResults_attribution client config n _ _ _ _ _ _ Hn
              (ltac:(by rewrite Hi2)) Hfold) as (Hsound & Hcomplete & _).
  rewrite Hi2, <- Hpaths, Hsec in Hsound. rewrite Hi2, <- Hpaths in Hcomplete.
  split_and!; [done | done | |].
  - assert (1 ≤ Workers config)%nat as Hw by lia.
    destruct (fetchDefinition_closed_batch _ _ _ _ _ _ _ Hw Hin Hrun') as [_ Hdone].
    by destruct (Hdone def' eq_refl).
  - assert (1 ≤ Workers config)%nat as Hw by lia.
    destruct (fetchDefinition_closed_batch _ _ _ _ _ _ _ Hw Hin Hrun') as [_ Hdone].
    by destruct (Hdone def' eq_refl).
Qed.

(** The plural definition of the sample store: two paths, two secrets. *)
Lemma fetch_attribution_witness :
  ∃ def' w' out,
    fetchDefinition (rt := SampleRuntime.runtime) sampleStore (mkConfig 2 "" true)
                    (pluralDefinition "secret/app/db") (worldOf [])
    = (Done def', w', out)
    ∧ inflight w' = []
    ∧ submitted w' = (submitted (worldOf []) ++ paths def')%list
    ∧ paths def' = ["secret/app/db/user"; "secret/app/db/pass"].
Proof.
  destruct (fetchDefinition (rt := SampleRuntime.runtime) sampleStore (mkConfig 2 "" true)
                            (pluralDefinition "secret/app/db") (worldOf []))
    as [[o w'] out] eqn:Hrun.
  assert (∃ def', o = Done def'
                  ∧ paths def' = ["secret/app/db/user"; "secret/app/db/pass"])
    as (def' & -> & Hpaths).
  { apply (f_equal (λ r, r.1.1)) in Hrun. vm_compute in Hrun. subst o.
    eexists. split; [reflexivity |]. vm_compute. reflexivity. }
  exists def', w', out.
  destruct (fetch_attribution (rt := SampleRuntime.runtime) sampleStore
              (mkConfig 2 "" true) (pluralDefinition "secret/app/db") def'
              (worldOf []) w' out ltac:(simpl; lia) eq_refl Hrun)
    as (_ & _ & Hin & Hsub).
  by split_and!.
Defined.

(** X9: with at least one worker and no request in flight at the start,
    [SecretFetcher] never blocks on the reader: the loop of lines 122-132
    takes as many results as the loop of lines 119-121 has requested, for
    each definition in turn, and the second loop does not use the reader. *)
Theorem SecretFetcher_never_blocks {rt : GoRuntime} (client : Client)
        (config : Config) (w : World) :
  (1 ≤ Workers config)%nat → inflight w = [] →
  (SecretFetcher client config w).1.1 ≠ Blocked.
Proof.
  intros Hworkers Hin. unfold SecretFetcher.
  rewrite (bind_Done _ _ _ () w [LogStarting] eq_refl).
  rewrite (bind_Done _ _ _ (GoOs.Environ (environ w)) w [] eq_refl).
  destruct (discover client config (GoOs.Environ (environ w)) w)
    as [[[defs| | |] w1] out1] eqn:Hd;
    pose proof (discover_closed _ _ _ _ _ _ _ _ Hworkers Hin Hd) as Hnb; try done.
  - rewrite (bind_Done _ _ _ _ _ _ Hd).
    destruct (forM_ (outputDefinition config) defs w1) as [[[[]| | |] w2] out2] eqn:Ho;
      pose proof (output_loop_not_blocked _ _ _ _ _ _ Ho) as Hnb2; try done.
    + by rewrite (bind_Done _ _ _ _ _ _ Ho).
    + by rewrite (bind_Fatal _ _ _ _ _ _ Ho).
    + by rewrite (bind_Panic _ _ _ _ _ _ Ho).
  - by rewrite (bind_Fatal _ _ _ _ _ _ Hd).
  - by rewrite (bind_Panic _ _ _ _ _ _ Hd).
Qed.

(** The sample environment and store, with two workers. *)
Lemma SecretFetcher_never_blocks_witness :
  ∃ o, (SecretFetcher (rt := SampleRuntime.runtime) sampleStore (mkConfig 2 "/payload" false)
                      (worldOf sampleTable)).1.1 = o
       ∧ o ≠ Blocked.
Proof.
  eexists. split; [reflexivity |].
  apply (SecretFetcher_never_blocks (rt := SampleRuntime.runtime)); [simpl; lia | reflexivity].
Defined.

(** ** A singular secret, from the store to its destination *)

(** X10: a singular definition whose secret has the one attribute
    [value], a string: with a worker and no request in flight, the fetch
    completes with that string as the definition's only secret, under the
    final element of the path; and [writeSecretsToDestination] then leaves
    exactly that string in the destination file. *)
Theorem singular_value_to_destination {rt : GoRuntime} (client : Client)
        (config : Config) (def : SecretDefinition) (secret : ApiSecret)
        (v : string) (w : World) :
  plural def = false → paths def = [SecretApex def] → secrets def = ∅ →
  (1 ≤ Workers config)%nat → inflight w = [] →
  Logical_Read client (SecretApex def) = (Some secret, None) →
  Data secret = {[ defaultKeyName := VString v ]} →
  OutputDestination def ∉ readonly w →
  ∃ w1,
    fetchDefinition client config def w
    = (Done (withSecrets {[ (GoPath.Split (SecretApex def)).2 := v ]} def), w1, [])
    ∧ submitted w1 = (submitted w ++ [SecretApex def])%list
    ∧ files w1 = files w
    ∧ writeSecretsToDestination
        (withSecrets {[ (GoPath.Split (SecretApex def)).2 := v ]} def) w1
      = (Done None, setFile (OutputDestination def) v w1,
         [LogWroteSecret (OutputDestination def)]).
Proof.
  intros Hplural Hpaths Hsecrets Hworkers Hin Hread Hdata Hdest.
  destruct (Workers config) as [|n] eqn:Hn; [lia |].
  destruct (ReadSecretResult_pick client n (noteSubmitted (SecretApex def) w))
    as (r & w1 & Hpick & Hres & Hperm & Hsub).
  { simpl. by destruct (inflight w). }
  simpl in Hperm, Hsub. rewrite Hin in Hperm. simpl in Hperm.
  assert (KeyPath r = SecretApex def ∧ inflight w1 = []) as [Hkey Hin1].
  { pose proof (Permutation_length Hperm) as Hlen. simpl in Hlen.
    destruct (inflight w1); [| simpl in Hlen; lia].
    apply Permutation_singleton_inj in Hperm. by split. }
  rewrite Hkey, Hread in Hres. injection Hres as Hsec Herr.
  assert (sameSurroundings (noteSubmitted (SecretApex def) w) w1) as (_ & Hfiles & Hro).
  { by eapply preserves_ReadSecretResult. }
  exists w1. split_and!.
  - unfold fetchDefinition. rewrite Hplural.
    rewrite (bind_Done _ _ _ def w [] eq_refl). rewrite Hpaths. simpl.
    rewrite (bind_Done _ _ _ () (noteSubmitted (SecretApex def) w) [] eq_refl).
    unfold takeResult. rewrite Hn, bind_assoc, (bind_Done _ _ _ _ _ _ Hpick).
    unfold mergeResult, addSecrets.
    rewrite Herr, Hsec, Hkey, Hdata, rangeMap_singleton, Hsecrets. simpl.
    rewrite secretKey_default. by rewrite insert_empty.
  - done.
  - done.
  - unfold writeSecretsToDestination. simpl. rewrite Hplural, rangeMap_singleton.
    destruct (writeValues_writable (OutputDestination def)
                [((GoPath.Split (SecretApex def)).2, v)] w1)
      as (k' & v' & [= <- <-] & ->); [by rewrite Hro | done | done].
Qed.

(** The spec's scenario: [secret/app/api] holds [value = abc123]. *)
Lemma singular_value_to_destination_witness :
  ∃ w1,
    fetchDefinition (rt := SampleRuntime.runtime) sampleStore (mkConfig 2 "" false)
                    singularDefinition (worldOf [])
    = (Done fetchedDefinition, w1, [])
    ∧ writeSecretsToDestination (rt := SampleRuntime.runtime) fetchedDefinition w1
      = (Done None, setFile "/out/api.txt" "abc123" w1, [LogWroteSecret "/out/api.txt"]).
Proof.
  destruct (singular_value_to_destination (rt := SampleRuntime.runtime) sampleStore
              (mkConfig 2 "" false) singularDefinition
              (mkApiSecret {[ "value" := VString "abc123" ]}) "abc123" (worldOf [])
              eq_refl eq_refl eq_refl ltac:(simpl; lia) eq_refl eq_refl eq_refl
              ltac:(vm_compute; set_solver))
    as (w1 & Hfetch & _ & _ & Hwrite).
  exists w1. split; [exact Hfetch | exact Hwrite].
Defined.
